(** * SparseMatrix: a shallow embedding of src/numerics/sparse_matrix.C

    The file models the backend-independent part of libMesh's
    [SparseMatrix<T>]: the attach operations, the block inserter
    [add_block_matrix], the factory [build], the complex-valued [print]
    specialisation and the distributed [print].

    Unsigned machine integers are values of [N]; arithmetic in
    [numeric_index_type] wraps modulo [2 ^ index_bits].  Fatal outcomes
    (failed assertions, [libmesh_error_msg], [libmesh_not_implemented],
    integer division by zero) are values of [fault].  The output stream
    is the list of the items inserted with [operator<<], oldest first. *)

From Stdlib Require Import String NArith ZArith List Sorted Bool Lia.
Import ListNotations.
Local Open Scope N_scope.

Set Implicit Arguments.

(* ================================================================== *)
(** ** Outcomes of a call *)
(* ================================================================== *)

(** The enumeration [SolverPackage] is declared in
    enum_solver_package.h.  The factory names four of its enumerators;
    every other value the enumeration can hold is [UNLISTED_SOLVERS]
    with its integer value. *)
Inductive SolverPackage : Type :=
| PETSC_SOLVERS
| TRILINOS_SOLVERS
| LASPACK_SOLVERS
| EIGEN_SOLVERS
| UNLISTED_SOLVERS (value : N).

Inductive MatrixBuildType : Type :=
| AUTOMATIC
| DIAGONAL.

(** What an error message is made of: string literals and a streamed
    [SolverPackage]. *)
Inductive msg_item : Type :=
| MStr (s : string)
| MPackage (p : SolverPackage).

Inductive fault : Type :=
| AssertionFailure                 (* a libmesh_assert* macro failed *)
| DivideByZero                     (* unsigned / or % with a zero divisor *)
| NotImplemented                   (* libmesh_not_implemented() *)
| ErrorMsg (msg : list msg_item)   (* libmesh_error_msg(...) *)
| OutOfBounds                      (* std::vector operator[] past the end *)
| ReceiveBlocked                   (* a receive with no matching send *)
| ReceiveTypeMismatch.             (* a receive of the wrong element type *)

Inductive result (A : Type) : Type :=
| Done (a : A)
| Fatal (f : fault)
| OutOfFuel.

Arguments Done {A} a.
Arguments Fatal {A} f.
Arguments OutOfFuel {A}.

Definition bind {A B : Type} (c : result A) (k : A -> result B) : result B :=
  match c with
  | Done a => k a
  | Fatal f => Fatal f
  | OutOfFuel => OutOfFuel
  end.

Declare Scope result_scope.
Delimit Scope result_scope with result.
Notation "x <- c ;; k" := (bind c (fun x => k))
  (at level 61, c at next level, right associativity) : result_scope.
Notation "' pat <- c ;; k" := (bind c (fun pat => k))
  (at level 61, pat pattern, c at next level, right associativity) : result_scope.
Notation "c ;; k" := (bind c (fun _ => k))
  (at level 61, right associativity) : result_scope.
Local Open Scope result_scope.

(** Modelled from the spec: the [libmesh_assert*] macros are declared
    outside src/; section 7 of the specification has them as fatal,
    assertion-style precondition checks, which is how they are taken
    here. *)
Definition libmesh_assert (b : bool) : result unit :=
  if b then Done tt else Fatal AssertionFailure.

Definition libmesh_assert_equal_to (a b : N) : result unit :=
  libmesh_assert (a =? b).

Definition libmesh_assert_greater_equal (a b : N) : result unit :=
  libmesh_assert (b <=? a).

Definition libmesh_error_msg {A : Type} (msg : list msg_item) : result A :=
  Fatal (ErrorMsg msg).

Definition libmesh_error_msg_if (b : bool) (msg : list msg_item) : result unit :=
  if b then libmesh_error_msg msg else Done tt.

Definition libmesh_not_implemented {A : Type} : result A :=
  Fatal NotImplemented.

(** Unsigned division and remainder: a zero divisor has no defined
    result in C++. *)
Definition udiv (a b : N) : result N :=
  if b =? 0 then Fatal DivideByZero else Done (a / b).

Definition umod (a b : N) : result N :=
  if b =? 0 then Fatal DivideByZero else Done (a mod b).

(** [v.size()] and [v[k]] of a [std::vector]. *)
Definition size {A : Type} (v : list A) : N := N.of_nat (length v).

Definition vec_at {A : Type} (v : list A) (k : nat) : result A :=
  match nth_error v k with
  | Some x => Done x
  | None => Fatal OutOfBounds
  end.

(** Range-based [for] over a list, with a body that may fail. *)
Fixpoint foreach {A S : Type} (l : list A) (body : A -> S -> result S) (s : S)
  : result S :=
  match l with
  | [] => Done s
  | x :: t => s' <- body x s ;; foreach t body s'
  end.

(** [IntRange<T>(b, e)]: the values [b], [b+1], ..., [e-1];
    [make_range(e)] is [IntRange(0, e)]. *)
Definition IntRange (b e : N) : list N :=
  map (fun k => b + N.of_nat k) (seq 0 (N.to_nat (e - b))).

Definition make_range (e : N) : list N := IntRange 0 e.

(* ================================================================== *)
(** ** numeric_index_type *)
(* ================================================================== *)

(** The width of [numeric_index_type] is fixed when libMesh is
    configured; it is a parameter of the model. *)
Class IndexType : Type := { index_bits : N }.

Section Index.
Context {IT : IndexType}.

Definition index_modulus : N := 2 ^ index_bits.

Definition wrap (x : N) : N := x mod index_modulus.

(** [++i] and [a * b] on [numeric_index_type]. *)
Definition index_succ (i : N) : N := wrap (i + 1).
Definition index_mul (a b : N) : N := wrap (a * b).

(** [cast_int<numeric_index_type>(x)]: the conversion, with the
    check of the value that the helper makes. *)
Definition cast_int (x : N) : result N :=
  libmesh_assert (x <? index_modulus) ;; Done (wrap x).

(** [for (i = first; i != last; ++i) body], [i] a
    [numeric_index_type]. *)
Fixpoint for_ne {S : Type} (fuel : nat) (i last : N)
         (body : N -> S -> result S) (s : S) : result S :=
  match fuel with
  | O => OutOfFuel
  | Datatypes.S fuel' =>
      if i =? last then Done s
      else s' <- body i s ;; for_ne fuel' (index_succ i) last body s'
  end.

(** [for (; i <= last; ++i) body]; the counter is live after the
    loop and is returned with the state. *)
Fixpoint for_le {S : Type} (fuel : nat) (i last : N)
         (body : N -> S -> result S) (s : S) : result (N * S) :=
  match fuel with
  | O => OutOfFuel
  | Datatypes.S fuel' =>
      if i <=? last
      then s' <- body i s ;; for_le fuel' (index_succ i) last body s'
      else Done (i, s)
  end.
End Index.

(* ================================================================== *)
(** ** The objects *)
(* ================================================================== *)

(** The scalar type [T]: the value [static_cast<T>(0.0)] and the
    comparison [a != b]. *)
Class Scalar (T : Type) : Type := {
  scalar_zero : T;
  scalar_ne : T -> T -> bool
}.

(** [std::complex<R>] with its accessors [real()] and [imag()]. *)
Record Complex (R : Type) : Type := { real : R; imag : R }.

(** [Parallel::Communicator]: the rank of the calling process and the
    number of processes. *)
Record Communicator : Type := { rank : N; comm_size : N }.

(** [DenseMatrix<T>]: [m()] rows, [n()] columns (both [unsigned int])
    and the values, stored row by row. *)
Record DenseMatrix (T : Type) : Type := {
  dm_m : N;
  dm_n : N;
  dm_val : list T
}.

(** The concrete classes the factory can construct. *)
Inductive MatrixClass : Type :=
| DiagonalMatrix
| LaspackMatrix
| PetscMatrix
| EpetraMatrix
| EigenSparseMatrix.

(** The preprocessor symbols that guard the cases of the factory. *)
Record Config : Type := {
  LIBMESH_HAVE_LASPACK : bool;
  LIBMESH_HAVE_PETSC : bool;
  LIBMESH_TRILINOS_HAVE_EPETRA : bool;
  LIBMESH_HAVE_EIGEN : bool
}.

Section Objects.
Variable T : Type.
(** [SparsityPattern::Build] is opaque to this file. *)
Variable SparsityPattern : Type.

(** What this file uses of a [DofMap]: the row range
    [first_dof(), end_dof()) of the calling process and
    [get_sparsity_pattern()], which may be null. *)
Record DofMap : Type := {
  first_dof : N;
  end_dof : N;
  get_sparsity_pattern : option SparsityPattern
}.

(** What the pure virtual members [m()], [n()] and [operator()(i,j)]
    return. *)
Record Storage : Type := {
  st_m : N;
  st_n : N;
  st_entry : N -> N -> T
}.

(** A [SparseMatrix<T>] object: its dynamic class, the communicator
    of its [ParallelObject] base, the three members of the abstract
    class and the storage of the concrete class.  A pointer that may
    be null is an [option]. *)
Record SparseMatrix : Type := {
  dynamic_class : MatrixClass;
  _communicator : Communicator;
  _dof_map : option DofMap;
  _sp : option SparsityPattern;
  _is_initialized : bool;
  storage : Storage
}.

Definition processor_id (self : SparseMatrix) : N := rank (_communicator self).
Definition n_processors (self : SparseMatrix) : N := comm_size (_communicator self).
Definition initialized (self : SparseMatrix) : bool := _is_initialized self.
Definition m (self : SparseMatrix) : N := st_m (storage self).
Definition n (self : SparseMatrix) : N := st_n (storage self).
Definition entry (self : SparseMatrix) (i j : N) : T := st_entry (storage self) i j.

(** The constructor (lines 47-53); the storage is what the
    constructor of the concrete class makes of it. *)
Definition SparseMatrix_ctor (cls : MatrixClass) (comm_in : Communicator)
           (st : Storage) : SparseMatrix :=
  {| dynamic_class := cls;
     _communicator := comm_in;
     _dof_map := None;
     _sp := None;
     _is_initialized := false;
     storage := st |}.

(** [attach_dof_map] (lines 57-63). *)
Definition attach_dof_map (self : SparseMatrix) (dof_map : DofMap) : SparseMatrix :=
  let self1 :=
    {| dynamic_class := dynamic_class self;
       _communicator := _communicator self;
       _dof_map := Some dof_map;
       _sp := _sp self;
       _is_initialized := _is_initialized self;
       storage := storage self |} in
  match _sp self1 with
  | None =>
      {| dynamic_class := dynamic_class self1;
         _communicator := _communicator self1;
         _dof_map := _dof_map self1;
         _sp := get_sparsity_pattern dof_map;
         _is_initialized := _is_initialized self1;
         storage := storage self1 |}
  | Some _ => self1
  end.

(** [attach_sparsity_pattern] (lines 67-71). *)
Definition attach_sparsity_pattern (self : SparseMatrix) (sp : SparsityPattern)
  : SparseMatrix :=
  {| dynamic_class := dynamic_class self;
     _communicator := _communicator self;
     _dof_map := _dof_map self;
     _sp := Some sp;
     _is_initialized := _is_initialized self;
     storage := storage self |}.

(* ---------------------------------------------------------------- *)
(** *** The factory (lines 149-191) *)

(** [std::unique_ptr]: a pointer that can be null. *)
Definition unique_ptr (A : Type) : Type := option A.

Section Build.
Variable cfg : Config.
(** The storage a freshly constructed object of each class has;
    the constructors of the concrete classes are not in this file. *)
Variable new_storage : MatrixClass -> Communicator -> Storage.

Definition make_unique (cls : MatrixClass) (comm : Communicator)
  : unique_ptr SparseMatrix :=
  Some (SparseMatrix_ctor cls comm (new_storage cls comm)).

Definition unrecognized (solver_package : SolverPackage)
  : result (unique_ptr SparseMatrix) :=
  libmesh_error_msg
    [MStr "ERROR:  Unrecognized solver package: "%string;
     MPackage solver_package].

Definition build (comm : Communicator) (solver_package : SolverPackage)
           (matrix_build_type : MatrixBuildType)
  : result (unique_ptr SparseMatrix) :=
  match matrix_build_type with
  | DIAGONAL => Done (make_unique DiagonalMatrix comm)
  | AUTOMATIC =>
      match solver_package with
      | LASPACK_SOLVERS =>
          if LIBMESH_HAVE_LASPACK cfg
          then Done (make_unique LaspackMatrix comm)
          else unrecognized solver_package
      | PETSC_SOLVERS =>
          if LIBMESH_HAVE_PETSC cfg
          then Done (make_unique PetscMatrix comm)
          else unrecognized solver_package
      | TRILINOS_SOLVERS =>
          if LIBMESH_TRILINOS_HAVE_EPETRA cfg
          then Done (make_unique EpetraMatrix comm)
          else unrecognized solver_package
      | EIGEN_SOLVERS =>
          if LIBMESH_HAVE_EIGEN cfg
          then Done (make_unique EigenSparseMatrix comm)
          else unrecognized solver_package
      | UNLISTED_SOLVERS _ => unrecognized solver_package
      end
  end.
End Build.

(* ---------------------------------------------------------------- *)
(** *** The block inserter (lines 75-111) *)

Section BlockInserter.
Context {IT : IndexType}.
(** The pure virtual [add_matrix (dm, rows, cols)] of the concrete
    class. *)
Variable add_matrix :
  DenseMatrix T -> list N -> list N -> SparseMatrix -> result SparseMatrix.

(** The inner loop: [count] times [v.push_back(i++)]. *)
Fixpoint push_consecutive (count : nat) (i : N) (v : list N) : list N * N :=
  match count with
  | O => (v, i)
  | Datatypes.S count' => push_consecutive count' (index_succ i) (v ++ [i])
  end.

(** The outer loop over the block indices. *)
Definition expand_blocks (blocksize : N) (blocks : list N) : list N :=
  fold_left
    (fun v blk =>
       let i := index_mul blk blocksize in
       fst (push_consecutive (N.to_nat blocksize) i v))
    blocks [].

Definition add_block_matrix (self : SparseMatrix) (dm : DenseMatrix T)
           (brows bcols : list N) : result SparseMatrix :=
  qr <- udiv (dm_m dm) (size brows) ;;
  qc <- udiv (dm_n dm) (size bcols) ;;
  libmesh_assert_equal_to qr qc ;;
  q <- udiv (dm_m dm) (size brows) ;;
  blocksize <- cast_int q ;;
  rm <- umod (dm_m dm) blocksize ;;
  libmesh_assert_equal_to rm 0 ;;
  rn <- umod (dm_n dm) blocksize ;;
  libmesh_assert_equal_to rn 0 ;;
  let rows := expand_blocks blocksize brows in
  let cols := expand_blocks blocksize bcols in
  add_matrix dm rows cols self.
End BlockInserter.
End Objects.

(* ================================================================== *)
(** ** The output stream and the communicator *)
(* ================================================================== *)

Section Streams.
(** The type of the values written to the stream and sent between
    processes. *)
Variable V : Type.

(** One insertion into the [std::ostream]: an index, a value, a
    string literal, [std::setw(w)] or [std::endl]. *)
Inductive token : Type :=
| TIdx (i : N)
| TVal (c : V)
| TStr (s : string)
| TSetw (w : N)
| TEndl.

(** One message: a [std::vector<numeric_index_type>] or a
    [std::vector<T>]. *)
Inductive packet : Type :=
| IndexPacket (v : list N)
| ValuePacket (v : list V).

(** What a call of [print] can see and change outside the object:
    the stream [os], the messages waiting to be received from each
    rank, and the messages sent so far with their destination. *)
Record world : Type := {
  os : list token;
  inbox : N -> list packet;
  outbox : list (N * packet)
}.

(** [os << t1 << t2 << ...] *)
Definition put (items : list token) (w : world) : world :=
  {| os := os w ++ items; inbox := inbox w; outbox := outbox w |}.

Definition pop_inbox (p : N) (rest : list packet) (w : world) : world :=
  {| os := os w;
     inbox := fun q => if q =? p then rest else inbox w q;
     outbox := outbox w |}.

(** [comm().receive(p, buf)], [buf] a vector of indices: blocks
    until the next message of rank [p] is there and stores it in
    [buf]. *)
Definition receive_indices (p : N) (w : world) : result (list N * world) :=
  match inbox w p with
  | [] => Fatal ReceiveBlocked
  | IndexPacket v :: rest => Done (v, pop_inbox p rest w)
  | ValuePacket _ :: _ => Fatal ReceiveTypeMismatch
  end.

(** [comm().receive(p, buf)], [buf] a vector of values. *)
Definition receive_values (p : N) (w : world) : result (list V * world) :=
  match inbox w p with
  | [] => Fatal ReceiveBlocked
  | ValuePacket v :: rest => Done (v, pop_inbox p rest w)
  | IndexPacket _ :: _ => Fatal ReceiveTypeMismatch
  end.

(** [comm().send(dest, buf)] *)
Definition send (dest : N) (msg : packet) (w : world) : world :=
  {| os := os w; inbox := inbox w; outbox := outbox w ++ [(dest, msg)] |}.

(** The messages of [w]'s outbox that go to [dest], in order. *)
Definition packets_for (dest : N) (w : world) : list packet :=
  map snd (filter (fun e => fst e =? dest) (outbox w)).

(** A process that has not written, sent or been sent anything. *)
Definition quiet_world (os0 : list token) : world :=
  {| os := os0; inbox := fun _ => []; outbox := [] |}.
End Streams.

Arguments TIdx {V} i.
Arguments TStr {V} s.
Arguments TSetw {V} w.
Arguments TEndl {V}.

(* ================================================================== *)
(** ** print for complex scalars (lines 115-141) *)
(* ================================================================== *)

Section PrintComplex.
Variable R : Type.
Variable SparsityPattern : Type.

Definition print_Complex (self : SparseMatrix (Complex R) SparsityPattern)
           (sparse : bool) (w : world R) : result (world R) :=
  (if sparse then libmesh_not_implemented else Done tt) ;;
  let w := put [TStr "Real part:"%string; TEndl] w in
  w <- foreach (make_range (m self))
         (fun i w =>
            w <- foreach (make_range (n self))
                   (fun j w =>
                      Done (put [TSetw 8; TVal (real (entry self i j));
                                 TStr " "%string] w)) w ;;
            Done (put [TEndl] w)) w ;;
  let w := put [TEndl; TStr "Imaginary part:"%string; TEndl] w in
  foreach (make_range (m self))
    (fun i w =>
       w <- foreach (make_range (n self))
              (fun j w =>
                 Done (put [TSetw 8; TVal (imag (entry self i j));
                            TStr " "%string] w)) w ;;
       Done (put [TEndl] w)) w.
End PrintComplex.

(* ================================================================== *)
(** ** print (lines 224-345) *)
(* ================================================================== *)

Section Print.
Variable T : Type.
Variable SparsityPattern : Type.
Context {ST : Scalar T} {IT : IndexType}.

Abbreviation SparseMatrix := (SparseMatrix T SparsityPattern).
Abbreviation world := (world T).

(** [c != static_cast<T>(0.0)] *)
Definition nonzero (c : T) : bool := scalar_ne c scalar_zero.

(** Lines 241-257: one row of the root's own range. *)
Definition print_own_row (self : SparseMatrix) (sparse : bool)
           (i : N) (w : world) : result world :=
  if sparse then
    foreach (make_range (n self))
      (fun j w =>
         let c := entry self i j in
         if nonzero c
         then Done (put [TIdx i; TStr " "%string; TIdx j; TStr " "%string;
                         TVal c; TEndl] w)
         else Done w) w
  else
    w <- foreach (make_range (n self))
           (fun j w => Done (put [TVal (entry self i j); TStr " "%string] w)) w ;;
    Done (put [TEndl] w).

(** The condition of lines 283-285 and 296-298, evaluated left to
    right with short circuit. *)
Definition triplet_here (ibuf jbuf : list N) (currentb : nat) (currenti j : N)
  : result bool :=
  if N.of_nat currentb <? size ibuf then
    i' <- vec_at ibuf currentb ;;
    if i' =? currenti then
      j' <- vec_at jbuf currentb ;; Done (j' =? j)
    else Done false
  else Done false.

(** Lines 279-307: one row of the range covered by a received
    buffer; the state is the cursor [currentb] and the stream. *)
Definition print_received_row (self : SparseMatrix) (sparse : bool)
           (ibuf jbuf : list N) (cbuf : list T)
           (currenti : N) (st : nat * world) : result (nat * world) :=
  if sparse then
    foreach (IntRange 0 (n self))
      (fun j st =>
         let '(currentb, w) := st in
         hit <- triplet_here ibuf jbuf currentb currenti j ;;
         if (hit : bool) then
           c <- vec_at cbuf currentb ;;
           Done (S currentb,
                 put [TIdx currenti; TStr " "%string; TIdx j; TStr " "%string;
                      TVal c; TEndl] w)
         else Done (currentb, w)) st
  else
    st <- foreach (make_range (n self))
            (fun j st =>
               let '(currentb, w) := st in
               hit <- triplet_here ibuf jbuf currentb currenti j ;;
               if (hit : bool) then
                 c <- vec_at cbuf currentb ;;
                 Done (S currentb, put [TVal c; TStr " "%string] w)
               else
                 Done (currentb, put [TVal scalar_zero; TStr " "%string] w)) st ;;
    let '(currentb, w) := st in
    Done (currentb, put [TEndl] w).

(** Lines 265-308: the body of the loop over the ranks [p]; the
    state is [currenti] and the stream. *)
Definition receive_from (fuel : nat) (self : SparseMatrix) (sparse : bool)
           (p : N) (st : N * world) : result (N * world) :=
  let '(currenti, w) := st in
  '(ibuf, w) <- receive_indices p w ;;
  '(jbuf, w) <- receive_indices p w ;;
  '(cbuf, w) <- receive_values p w ;;
  libmesh_assert_equal_to (size ibuf) (size jbuf) ;;
  libmesh_assert_equal_to (size ibuf) (size cbuf) ;;
  match ibuf with
  | [] => Done (currenti, w)
  | front :: _ =>
      let back := last ibuf front in
      libmesh_assert_greater_equal front currenti ;;
      libmesh_assert_greater_equal back front ;;
      '(currenti, (_, w)) <-
        for_le fuel currenti back
          (print_received_row self sparse ibuf jbuf cbuf) (O, w) ;;
      Done (currenti, w)
  end.

(** Lines 314-316: one padding row. *)
Definition print_zero_row (self : SparseMatrix) (i : N) (w : world)
  : result world :=
  w <- foreach (IntRange 0 (n self))
         (fun j w => Done (put [TVal scalar_zero; TStr " "%string] w)) w ;;
  Done (put [TEndl] w).

(** Lines 330-339: one row of a process that is not the root; the
    state is the three buffers. *)
Definition collect_row (self : SparseMatrix) (i : N)
           (bufs : list N * list N * list T) : result (list N * list N * list T) :=
  foreach (make_range (n self))
    (fun j bufs =>
       let '(ibuf, jbuf, cbuf) := bufs in
       let c := entry self i j in
       if nonzero c
       then Done (ibuf ++ [i], jbuf ++ [j], cbuf ++ [c])
       else Done bufs) bufs.

(** [print (os, sparse)].  [parallel_object_only()] compares the
    call site between the processes in debug builds and changes
    nothing; it is left out. *)
Definition print (fuel : nat) (self : SparseMatrix) (sparse : bool) (w : world)
  : result world :=
  libmesh_assert (initialized self) ;;
  match _dof_map self with
  | None =>
      libmesh_error_msg
        [MStr "Error!  Trying to print a matrix with no dof_map set!"%string]
  | Some dof_map =>
      if processor_id self =? 0 then
        libmesh_assert_equal_to (first_dof dof_map) 0 ;;
        w <- for_ne fuel (first_dof dof_map) (end_dof dof_map)
               (print_own_row self sparse) w ;;
        let currenti := end_dof dof_map in
        '(currenti, w) <-
          foreach (IntRange 1 (n_processors self))
            (receive_from fuel self sparse) (currenti, w) ;;
        if negb sparse
        then for_ne fuel currenti (m self) (print_zero_row self) w
        else Done w
      else
        '(ibuf, jbuf, cbuf) <-
          for_ne fuel (first_dof dof_map) (end_dof dof_map)
            (collect_row self) ([], [], []) ;;
        Done (send 0 (ValuePacket cbuf)
                (send 0 (IndexPacket T jbuf)
                   (send 0 (IndexPacket T ibuf) w)))
  end.

(* ---------------------------------------------------------------- *)
(** *** The collective call *)

(** Every process of the group calls [print]; what the root
    receives from rank [p] is what the call on rank [p] sent to
    rank 0.  [others] are the objects of the ranks other than the
    root. *)
Definition delivered (fuel : nat) (others : list SparseMatrix) (sparse : bool)
           (p : N) : list (packet T) :=
  match find (fun pr => processor_id pr =? p) others with
  | Some pr =>
      match print fuel pr sparse (quiet_world []) with
      | Done w => packets_for 0 w
      | _ => []
      end
  | None => []
  end.

(** The stream of the root after all processes called
    [print (os, sparse)]; [procs] are the objects of the processes,
    the root's first. *)
Definition collective_print (fuel : nat) (procs : list SparseMatrix)
           (sparse : bool) (os0 : list (token T)) : result (list (token T)) :=
  match procs with
  | [] => Done os0
  | root :: others =>
      w <- print fuel root sparse
             {| os := os0;
                inbox := delivered fuel others sparse;
                outbox := [] |} ;;
      Done (os w)
  end.

(** Row ownership partitioned contiguously by increasing rank: the
    object at position [p] belongs to rank [p] of [P], is
    initialized, has a DofMap, agrees on [m()] and [n()], and its
    row range starts where the previous one ended; the last range
    ends at or before row [m()]. *)
Fixpoint contiguous_from (next_rank next_row P mm nn : N)
         (procs : list SparseMatrix) : bool :=
  match procs with
  | [] => next_row <=? mm
  | pr :: rest =>
      match _dof_map pr with
      | None => false
      | Some d =>
          initialized pr
          && (processor_id pr =? next_rank)
          && (n_processors pr =? P)
          && (m pr =? mm) && (n pr =? nn)
          && (first_dof d =? next_row)
          && (first_dof d <=? end_dof d)
          && contiguous_from (next_rank + 1) (end_dof d) P mm nn rest
      end
  end.

Definition row_partition (procs : list SparseMatrix) : bool :=
  match procs with
  | [] => false
  | root :: _ =>
      (m root <? index_modulus)
      && contiguous_from 0 0 (size procs) (m root) (n root) procs
  end.
End Print.

(* ================================================================== *)
(** ** What the claims are stated with *)
(* ================================================================== *)

(** The class that belongs to a vendor tag, and whether its case of
    the factory's switch was compiled in. *)
Definition vendor_class (solver_package : SolverPackage) : option MatrixClass :=
  match solver_package with
  | LASPACK_SOLVERS => Some LaspackMatrix
  | PETSC_SOLVERS => Some PetscMatrix
  | TRILINOS_SOLVERS => Some EpetraMatrix
  | EIGEN_SOLVERS => Some EigenSparseMatrix
  | UNLISTED_SOLVERS _ => None
  end.

Definition compiled_in (cfg : Config) (cls : MatrixClass) : bool :=
  match cls with
  | DiagonalMatrix => true
  | LaspackMatrix => LIBMESH_HAVE_LASPACK cfg
  | PetscMatrix => LIBMESH_HAVE_PETSC cfg
  | EpetraMatrix => LIBMESH_TRILINOS_HAVE_EPETRA cfg
  | EigenSparseMatrix => LIBMESH_HAVE_EIGEN cfg
  end.

Section Rendering.
Variable V : Type.

(** A line of the sparse format: [<row> <col> <value>]. *)
Definition triplet_line (e : N * N * V) : list (token V) :=
  let '(i, j, c) := e in
  [TIdx i; TStr " "%string; TIdx j; TStr " "%string; TVal c; TEndl].

(** A field of the dense format and the space after it. *)
Definition dense_field (c : V) : list (token V) := [TVal c; TStr " "%string].

Definition dense_line (row : list V) : list (token V) :=
  flat_map dense_field row ++ [TEndl].

Definition dense_block (rows : list (list V)) : list (token V) :=
  flat_map dense_line rows.

(** The same with [std::setw(8)] before every value. *)
Definition setw_field (c : V) : list (token V) :=
  [TSetw 8; TVal c; TStr " "%string].

Definition setw_line (row : list V) : list (token V) :=
  flat_map setw_field row ++ [TEndl].

Definition setw_block (rows : list (list V)) : list (token V) :=
  flat_map setw_line rows.

(** The [rows] by [cols] table of the values [f i j]. *)
Definition table (f : N -> N -> V) (rows cols : list N) : list (list V) :=
  map (fun i => map (f i) cols) rows.
End Rendering.

Section BlockExpansion.
Context {IT : IndexType}.

(** The scalar indices of block [r]: [blocksize] consecutive values
    from [r * blocksize], in [numeric_index_type]. *)
Definition block_indices (blocksize r : N) : list N :=
  map (fun v => wrap (r * blocksize + N.of_nat v)) (seq 0 (N.to_nat blocksize)).

(** The expansions of the blocks, in the order of the blocks. *)
Definition block_expansion (blocksize : N) (blocks : list N) : list N :=
  flat_map (block_indices blocksize) blocks.
End BlockExpansion.

Section Triplets.
Variable T : Type.
Variable SparsityPattern : Type.
Context {ST : Scalar T}.

(** The entries of row [i] of a matrix object with their positions,
    by increasing column, and those of a list of rows. *)
Definition row_entries (self : SparseMatrix T SparsityPattern) (i : N)
  : list (N * N * T) :=
  map (fun j => (i, j, entry self i j)) (make_range (n self)).

Definition entries (self : SparseMatrix T SparsityPattern) (rows : list N)
  : list (N * N * T) :=
  flat_map (row_entries self) rows.

(** The triplets of the rows [[first, last)] whose value compares
    unequal to zero, in row-major order. *)
Definition nonzero_triplets (self : SparseMatrix T SparsityPattern)
           (first last : N) : list (N * N * T) :=
  filter (fun e => nonzero (snd e)) (entries self (IntRange first last)).

(** The three parallel sequences of a list of triplets. *)
Definition rows_of (l : list (N * N * T)) : list N := map (fun e => fst (fst e)) l.
Definition cols_of (l : list (N * N * T)) : list N := map (fun e => snd (fst e)) l.
Definition values_of (l : list (N * N * T)) : list T := map snd l.
End Triplets.

Section Received.
Variable T : Type.

(** The world after the three receives from rank [p], the last two
    of which delivered [jbuf] and [cbuf]; [rest] is what is still
    waiting from rank [p]. *)
Definition received (p : N) (jbuf : list N) (cbuf : list T)
           (rest : list (packet T)) (w : world T) : world T :=
  pop_inbox p rest
    (pop_inbox p (ValuePacket cbuf :: rest)
       (pop_inbox p (IndexPacket T jbuf :: ValuePacket cbuf :: rest) w)).

(** The three messages a process sends for its triplets [B]. *)
Definition buffer_packets (B : list (N * N * T)) : list (packet T) :=
  [IndexPacket T (rows_of B); IndexPacket T (cols_of B); ValuePacket (values_of B)].
End Received.

Section GlobalView.
Variable T : Type.
Variable SparsityPattern : Type.
Context {ST : Scalar T}.

(** A value as the root writes it for a row it received: the value
    itself when it compares unequal to zero, and zero otherwise. *)
Definition normalize (c : T) : T := if nonzero c then c else scalar_zero.

(** Entry [(r, j)] of the rows of the processes [others], as the
    root writes it in dense mode: the normalized entry of the first
    process, in rank order, that owns row [r], and zero for a row
    that none of them owns. *)
Fixpoint global_shown (others : list (SparseMatrix T SparsityPattern))
         (r j : N) : T :=
  match others with
  | [] => scalar_zero
  | pr :: rest =>
      match _dof_map pr with
      | Some d =>
          if (first_dof d <=? r) && (r <? end_dof d)
          then normalize (entry pr r j)
          else global_shown rest r j
      | None => global_shown rest r j
      end
  end.

(** The end of the root's own row range. *)
Definition own_end (root : SparseMatrix T SparsityPattern) : N :=
  match _dof_map root with
  | Some d => end_dof d
  | None => 0
  end.

(** Entry [(r, j)] of the distributed matrix as dense printing
    shows it: the root's own rows as they are, the other rows
    through [global_shown]. *)
Definition printed_dense (root : SparseMatrix T SparsityPattern)
           (others : list (SparseMatrix T SparsityPattern)) (r j : N) : T :=
  if r <? own_end root then entry root r j else global_shown others r j.

(** The triplets of the positions [rows] x [cols] that [keep]
    selects, with the values [f], in row-major order. *)
Definition kept_row (f : N -> N -> T) (keep : N -> N -> bool) (cols : list N)
           (r : N) : list (N * N * T) :=
  map (fun j => (r, j, f r j)) (filter (keep r) cols).

Definition kept_rows (f : N -> N -> T) (keep : N -> N -> bool) (cols rows : list N)
  : list (N * N * T) :=
  flat_map (kept_row f keep cols) rows.

(** What the root writes for row [r] of a received buffer. *)
Definition received_row_tokens (f : N -> N -> T) (keep : N -> N -> bool)
           (cols : list N) (sparse : bool) (r : N) : list (token T) :=
  if sparse
  then flat_map (@triplet_line T) (kept_row f keep cols r)
  else dense_line (map (fun j => if keep r j then f r j else scalar_zero) cols).

(** The positions for which the buffer of a sender whose rows start
    at [first] has a triplet. *)
Definition sender_keep (pr : SparseMatrix T SparsityPattern) (first : N)
           (r j : N) : bool :=
  (first <=? r) && nonzero (entry pr r j).
End GlobalView.

(* ================================================================== *)
(** ** Instances used in the examples *)
(* ================================================================== *)

(** Indices of 32 bits, the width libMesh is configured with by
    default. *)
#[local] Instance index32 : IndexType := {| index_bits := 32 |}.

(** Integer scalars, compared exactly. *)
#[local] Instance Z_scalar : Scalar Z :=
  {| scalar_zero := 0%Z; scalar_ne := fun a b => negb (Z.eqb a b) |}.

(** An initialized [mm] by [nn] matrix object of rank [rk] of [P]
    that owns the rows [[f, e)] and has the entries [ent]. *)
Definition example_matrix (rk P f e mm nn : N) (ent : N -> N -> Z)
  : SparseMatrix Z unit :=
  {| dynamic_class := PetscMatrix;
     _communicator := {| rank := rk; comm_size := P |};
     _dof_map := Some {| first_dof := f; end_dof := e;
                         get_sparsity_pattern := None |};
     _sp := None;
     _is_initialized := true;
     storage := {| st_m := mm; st_n := nn; st_entry := ent |} |}.

(** An [add_matrix] for the examples: entry [(rows[a], cols[b])]
    grows by the value of [dm] at [(a, b)]. *)
Definition dense_entry (dm : DenseMatrix Z) (a b : nat) : Z :=
  nth (a * N.to_nat (dm_n dm) + b) (dm_val dm) 0%Z.

Definition example_add_matrix (dm : DenseMatrix Z) (rows cols : list N)
           (self : SparseMatrix Z unit) : result (SparseMatrix Z unit) :=
  let added (i j : N) : Z :=
    fold_left Z.add
      (flat_map
         (fun a => map (fun b =>
                          if (nth a rows 0 =? i) && (nth b cols 0 =? j)
                          then dense_entry dm a b else 0%Z)
                       (seq 0 (length cols)))
         (seq 0 (length rows))) 0%Z in
  Done {| dynamic_class := dynamic_class self;
          _communicator := _communicator self;
          _dof_map := _dof_map self;
          _sp := _sp self;
          _is_initialized := _is_initialized self;
          storage := {| st_m := m self; st_n := n self;
                        st_entry := fun i j => (entry self i j + added i j)%Z |} |}.

(** A 10 by 10 matrix of zeros on a single process. *)
Definition example_self : SparseMatrix Z unit :=
  example_matrix 0 1 0 10 10 10 (fun _ _ => 0%Z).

(** A dense matrix of ones. *)
Definition ones (rows cols : N) : DenseMatrix Z :=
  {| dm_m := rows; dm_n := cols;
     dm_val := repeat 1%Z (N.to_nat (rows * cols)) |}.

(** Two processes share a 3 by 3 matrix: rank 0 owns the rows 0 and 1
    with the entries (0,0) = 1 and (1,1) = 2, rank 1 owns row 2 with
    the entry (2,0) = 3. *)
Definition scenario_root : SparseMatrix Z unit :=
  example_matrix 0 2 0 2 3 3
    (fun i j => if (i =? 0) && (j =? 0) then 1%Z
                else if (i =? 1) && (j =? 1) then 2%Z else 0%Z).

Definition scenario_other : SparseMatrix Z unit :=
  example_matrix 1 2 2 3 3 3
    (fun i j => if (i =? 2) && (j =? 0) then 3%Z else 0%Z).

(** The root's world when rank 1 has sent the triplet (2, 0, 3). *)
Definition scenario_world : world Z :=
  {| os := [];
     inbox := fun p => if p =? 1
                       then [IndexPacket Z [2]; IndexPacket Z [0]; ValuePacket [3%Z]]
                       else [];
     outbox := [] |}.

(** The messages a finished call has sent, with their destinations. *)
Definition outbox_of (r : result (world Z)) : list (N * packet Z) :=
  match r with
  | Done w => outbox w
  | _ => []
  end.

(* ================================================================== *)
(** ** The default matrix-vector operations (lines 194-220) *)
(* ================================================================== *)

Section VectorOps.
Variable T : Type.
Variable SparsityPattern : Type.
(** [NumericVector<T>] is not part of this file; the two members the
    defaults call are parameters: [dest.zero()] and
    [dest.add_vector(arg, matrix)], which may fail. *)
Variable NumericVector : Type.
Variable zero : NumericVector -> NumericVector.
Variable add_vector :
  NumericVector -> NumericVector -> SparseMatrix T SparsityPattern ->
  result NumericVector.

(** [vector_mult_add (dest, arg)] (lines 204-211); the result is the
    new [dest]. *)
Definition vector_mult_add (self : SparseMatrix T SparsityPattern)
           (dest arg : NumericVector) : result NumericVector :=
  add_vector dest arg self.

(** [vector_mult (dest, arg)] (lines 194-200). *)
Definition vector_mult (self : SparseMatrix T SparsityPattern)
           (dest arg : NumericVector) : result NumericVector :=
  let dest := zero dest in
  vector_mult_add self dest arg.

(** [zero_rows (rows, diag_value)] (lines 215-220). *)
Definition zero_rows (self : SparseMatrix T SparsityPattern)
           (rows : list N) (diag_value : T)
  : result (SparseMatrix T SparsityPattern) :=
  libmesh_not_implemented.
End VectorOps.

(* ================================================================== *)
(** ** What the further properties are stated with *)
(* ================================================================== *)

Section MoreViews.
Variable T : Type.
Variable SparsityPattern : Type.
Context {ST : Scalar T}.

(** The nonzero triplets of the rows a process owns. *)
Definition owned_triplets (pr : SparseMatrix T SparsityPattern)
  : list (N * N * T) :=
  match _dof_map pr with
  | Some d => nonzero_triplets pr (first_dof d) (end_dof d)
  | None => []
  end.

(** Row-major order of positions. *)
Definition row_major_lt (a b : N * N) : Prop :=
  fst a < fst b \/ (fst a = fst b /\ snd a < snd b).

(** [w'] comes from [w] by writing to the stream and receiving:
    nothing was sent and the old stream is a prefix of the new one. *)
Definition only_written (w w' : world T) : Prop :=
  outbox w' = outbox w /\ exists out, os w' = os w ++ out.
End MoreViews.

(** A vector type for the examples: lists of integers; [zero] keeps
    the length, [add_vector] adds the matrix-vector product. *)
Definition example_zero (v : list Z) : list Z := map (fun _ => 0%Z) v.

Definition example_add_vector (dest arg : list Z) (M : SparseMatrix Z unit)
  : result (list Z) :=
  Done (map (fun i =>
               (nth (N.to_nat i) dest 0
                + fold_left Z.add
                    (map (fun j => entry M i j * nth (N.to_nat j) arg 0)
                         (make_range (n M))) 0)%Z)
            (make_range (size dest))).

(** A build with PETSc and Eigen only, a one-process communicator and
    empty storage for new objects. *)
Definition example_cfg : Config :=
  {| LIBMESH_HAVE_LASPACK := false;
     LIBMESH_HAVE_PETSC := true;
     LIBMESH_TRILINOS_HAVE_EPETRA := false;
     LIBMESH_HAVE_EIGEN := true |}.

Definition example_comm : Communicator := {| rank := 0; comm_size := 1 |}.

Definition example_storage (cls : MatrixClass) (comm : Communicator) : Storage Z :=
  {| st_m := 0; st_n := 0; st_entry := fun _ _ => 0%Z |}.

(** What [build] returns for PETSc; sparsity patterns are numbered. *)
Definition example_built : SparseMatrix Z nat :=
  SparseMatrix_ctor nat PetscMatrix example_comm
                    (example_storage PetscMatrix example_comm).

(** The same object once initialized, still without DofMap. *)
Definition example_initialized : SparseMatrix Z nat :=
  {| dynamic_class := PetscMatrix;
     _communicator := example_comm;
     _dof_map := None;
     _sp := None;
     _is_initialized := true;
     storage := example_storage PetscMatrix example_comm |}.

(** Two DofMaps with the patterns 1 and 2. *)
Definition dof_map_a : DofMap nat :=
  {| first_dof := 0; end_dof := 4; get_sparsity_pattern := Some 1%nat |}.

Definition dof_map_b : DofMap nat :=
  {| first_dof := 0; end_dof := 4; get_sparsity_pattern := Some 2%nat |}.

(** Worlds of the root in which rank 1 has sent sequences of
    different lengths, and a row index that is the largest 32-bit
    value. *)
Definition mismatch_world : world Z :=
  {| os := [];
     inbox := fun p => if p =? 1
                       then [IndexPacket Z [2]; IndexPacket Z [0; 1];
                             ValuePacket [3%Z]]
                       else [];
     outbox := [] |}.

Definition max_index_world : world Z :=
  {| os := [];
     inbox := fun p => if p =? 1
                       then [IndexPacket Z [4294967295]; IndexPacket Z [0];
                             ValuePacket [3%Z]]
                       else [];
     outbox := [] |}.

(** The 2 by 2 identity on a single process. *)
Definition example_single : SparseMatrix Z unit :=
  example_matrix 0 1 0 2 2 2 (fun i j => if i =? j then 1%Z else 0%Z).

(* ================================================================== *)
(** ** Basic facts *)
(* ================================================================== *)

Lemma seq_offset (len a : nat) :
  seq a len = map (fun k => (a + k)%nat) (seq 0 len).
Proof.
  revert a. induction len as [|len IH]; intros a; cbn [seq map].
  - reflexivity.
  - f_equal; [lia|]. rewrite (IH (S a)), (IH 1%nat), map_map.
    apply map_ext. intros k. lia.
Qed.

Lemma flat_map_of_map {A B C : Type} (f : A -> B) (g : B -> list C) (l : list A) :
  flat_map g (map f l) = flat_map (fun x => g (f x)) l.
Proof.
  induction l as [|x t IH]; cbn [map flat_map]; [reflexivity|now rewrite IH].
Qed.

Lemma length_IntRange (b e : N) : length (IntRange b e) = N.to_nat (e - b).
Proof. unfold IntRange. now rewrite length_map, length_seq. Qed.

Lemma length_make_range (e : N) : size (make_range e) = e.
Proof.
  unfold size, make_range. rewrite length_IntRange, N.sub_0_r. apply N2Nat.id.
Qed.

Lemma In_IntRange (b e x : N) : In x (IntRange b e) <-> b <= x < e.
Proof.
  unfold IntRange. rewrite in_map_iff. split.
  - intros (k & <- & Hk). apply in_seq in Hk. lia.
  - intros H. exists (N.to_nat (x - b)). split; [lia|]. apply in_seq. lia.
Qed.

Lemma IntRange_empty (b e : N) : e <= b -> IntRange b e = [].
Proof.
  intros H. unfold IntRange. replace (e - b) with 0 by lia. reflexivity.
Qed.

Lemma IntRange_cons (b e : N) : b < e -> IntRange b e = b :: IntRange (b + 1) e.
Proof.
  intros H. unfold IntRange.
  replace (N.to_nat (e - b)) with (S (N.to_nat (e - (b + 1)))) by lia.
  cbn [seq map]. f_equal; [lia|].
  rewrite <- seq_shift, map_map. apply map_ext. intros k. lia.
Qed.

Lemma IntRange_snoc (b e : N) : b <= e -> IntRange b (e + 1) = IntRange b e ++ [e].
Proof.
  intros H. unfold IntRange.
  replace (N.to_nat (e + 1 - b)) with (N.to_nat (e - b) + 1)%nat by lia.
  rewrite seq_app, map_app. cbn [seq map]. do 2 f_equal. lia.
Qed.

Lemma IntRange_split (b c e : N) :
  b <= c -> c <= e -> IntRange b e = IntRange b c ++ IntRange c e.
Proof.
  intros H1 H2. unfold IntRange.
  replace (N.to_nat (e - b)) with (N.to_nat (c - b) + N.to_nat (e - c))%nat by lia.
  rewrite seq_app, map_app. f_equal.
  rewrite (seq_offset _ (0 + _)), map_map. apply map_ext. intros k. lia.
Qed.

Section StreamFacts.
Variable V : Type.
Implicit Types w : world V.

Lemma put_nil w : put [] w = w.
Proof. destruct w. unfold put. cbn. now rewrite app_nil_r. Qed.

Lemma put_put (a b : list (token V)) w : put b (put a w) = put (a ++ b) w.
Proof. unfold put. cbn. now rewrite app_assoc. Qed.

(** A loop whose body only writes to the stream writes the
    concatenation of what its iterations write. *)
Lemma foreach_put {A : Type} (body : A -> world V -> result (world V))
      (g : A -> list (token V)) (l : list A) :
  (forall x w, In x l -> body x w = Done (put (g x) w)) ->
  forall w, foreach l body w = Done (put (flat_map g l) w).
Proof.
  induction l as [|x t IH]; intros Hb w; cbn [foreach flat_map].
  - now rewrite put_nil.
  - rewrite Hb by (now left). cbn [bind].
    rewrite IH by (intros; apply Hb; now right).
    now rewrite put_put.
Qed.

Lemma flat_map_table_dense (f : N -> N -> V) (rows cols : list N) :
  flat_map (fun i => flat_map (fun j => dense_field (f i j)) cols ++ [TEndl]) rows
  = dense_block (table f rows cols).
Proof.
  unfold dense_block, table. rewrite flat_map_of_map.
  apply flat_map_ext. intros i. unfold dense_line.
  now rewrite flat_map_of_map.
Qed.

Lemma flat_map_table_setw (f : N -> N -> V) (rows cols : list N) :
  flat_map (fun i => flat_map (fun j => setw_field (f i j)) cols ++ [TEndl]) rows
  = setw_block (table f rows cols).
Proof.
  unfold setw_block, table. rewrite flat_map_of_map.
  apply flat_map_ext. intros i. unfold setw_line.
  now rewrite flat_map_of_map.
Qed.

Lemma table_shape (f : N -> N -> V) (mm nn : N) :
  size (table f (make_range mm) (make_range nn)) = mm
  /\ Forall (fun row => size row = nn) (table f (make_range mm) (make_range nn)).
Proof.
  split.
  - unfold table, size. rewrite length_map. apply length_make_range.
  - unfold table. apply Forall_map, Forall_forall. intros i _.
    unfold size. rewrite length_map. apply length_make_range.
Qed.
End StreamFacts.

(* ================================================================== *)
(** ** The factory *)
(* ================================================================== *)

Section BuildFacts.
Variables T SparsityPattern : Type.
Variable cfg : Config.
Variable new_storage : MatrixClass -> Communicator -> Storage T.

(** C5. Whatever the vendor tag (and whatever was compiled in),
    [build] with [DIAGONAL] returns a new [DiagonalMatrix]: the
    result is the same for any two tags. *)
Theorem build_DIAGONAL_ignores_vendor :
  forall (comm : Communicator) (solver_package other_package : SolverPackage),
    build SparsityPattern cfg new_storage comm
          solver_package DIAGONAL
    = Done (Some (SparseMatrix_ctor SparsityPattern DiagonalMatrix comm
                    (new_storage DiagonalMatrix comm)))
    /\ build SparsityPattern cfg new_storage comm
             solver_package DIAGONAL
       = build SparsityPattern cfg new_storage comm other_package DIAGONAL.
Proof. intros comm sp sp'. split; reflexivity. Qed.

(** C6. With [AUTOMATIC], a tag whose class is compiled in gives a
    non-null, newly constructed object of that class; a tag whose
    class is not compiled in, or that has no class, gives at once the
    fatal error whose message ends with that tag. *)
Theorem build_AUTOMATIC_dispatch :
  forall (comm : Communicator) (solver_package : SolverPackage),
    build SparsityPattern cfg new_storage comm
          solver_package AUTOMATIC
    = match vendor_class solver_package with
      | Some cls =>
          if compiled_in cfg cls
          then Done (Some (SparseMatrix_ctor SparsityPattern cls comm (new_storage cls comm)))
          else Fatal (ErrorMsg
                        [MStr "ERROR:  Unrecognized solver package: "%string;
                         MPackage solver_package])
      | None =>
          Fatal (ErrorMsg
                   [MStr "ERROR:  Unrecognized solver package: "%string;
                    MPackage solver_package])
      end.
Proof.
  intros comm sp. destruct sp; cbn [build vendor_class compiled_in];
    try reflexivity;
    match goal with |- context [if ?b then _ else _] => destruct b end;
    reflexivity.
Qed.
End BuildFacts.

(* ================================================================== *)
(** ** The attach operations *)
(* ================================================================== *)

Section AttachFacts.
Variables T SparsityPattern : Type.
Implicit Types self : SparseMatrix T SparsityPattern.

(** C7. [attach_dof_map] always sets [_dof_map]; it sets [_sp] from
    the DofMap exactly when [_sp] was null, and keeps a non-null
    [_sp]; [attach_sparsity_pattern] always sets [_sp]; nothing else
    changes. *)
Theorem attach_fields :
  forall self (dof_map : DofMap SparsityPattern) (sp : SparsityPattern),
    let a := attach_dof_map self dof_map in
    let b := attach_sparsity_pattern self sp in
    _dof_map a = Some dof_map
    /\ _sp a = match _sp self with
               | Some old => Some old
               | None => get_sparsity_pattern dof_map
               end
    /\ (dynamic_class a = dynamic_class self
        /\ _communicator a = _communicator self
        /\ _is_initialized a = _is_initialized self
        /\ storage a = storage self)
    /\ _sp b = Some sp
    /\ (dynamic_class b = dynamic_class self
        /\ _communicator b = _communicator self
        /\ _dof_map b = _dof_map self
        /\ _is_initialized b = _is_initialized self
        /\ storage b = storage self).
Proof.
  intros self dof_map sp a b. subst a b. unfold attach_dof_map.
  destruct self as [cls comm dm [old|] ini st]; cbn; repeat split; reflexivity.
Qed.
End AttachFacts.

(* ================================================================== *)
(** ** print for complex scalars *)
(* ================================================================== *)

Section PrintComplexFacts.
Variables R SparsityPattern : Type.
Implicit Types self : SparseMatrix (Complex R) SparsityPattern.

(** C8. For a complex matrix, [print] with [sparse] set is the
    not-implemented fault.  Without it the stream receives
    "Real part:", a line end, the [m()] by [n()] block of the real
    parts, an empty line, "Imaginary part:", a line end and the block
    of the imaginary parts; nothing is received or sent. *)
Theorem print_Complex_blocks :
  forall self (w : world R),
    let rows := make_range (m self) in
    let cols := make_range (n self) in
    let re := table (fun i j => real (entry self i j)) rows cols in
    let im := table (fun i j => imag (entry self i j)) rows cols in
    print_Complex self true w = Fatal NotImplemented
    /\ print_Complex self false w
       = Done {| os := os w
                       ++ [TStr "Real part:"%string; TEndl]
                       ++ setw_block re
                       ++ [TEndl; TStr "Imaginary part:"%string; TEndl]
                       ++ setw_block im;
                 inbox := inbox w;
                 outbox := outbox w |}
    /\ (size re = m self /\ Forall (fun row => size row = n self) re)
    /\ (size im = m self /\ Forall (fun row => size row = n self) im).
Proof.
  intros self w rows cols re im. split; [reflexivity|]. split.
  - unfold print_Complex. cbn [bind].
    rewrite foreach_put
      with (g := fun i => flat_map
                           (fun j => setw_field (real (entry self i j))) cols
                         ++ [TEndl]).
    2:{ intros i w0 _.
        rewrite foreach_put
          with (g := fun j => setw_field (real (entry self i j)))
          by reflexivity.
        cbn [bind]. now rewrite put_put. }
    cbn [bind].
    rewrite foreach_put
      with (g := fun i => flat_map
                           (fun j => setw_field (imag (entry self i j))) cols
                         ++ [TEndl]).
    2:{ intros i w0 _.
        rewrite foreach_put
          with (g := fun j => setw_field (imag (entry self i j)))
          by reflexivity.
        cbn [bind]. now rewrite put_put. }
    rewrite !put_put, !flat_map_table_setw. unfold put. cbn [os inbox outbox].
    reflexivity.
  - split; apply table_shape.
Qed.
End PrintComplexFacts.

(* ================================================================== *)
(** ** The block inserter *)
(* ================================================================== *)

Section IndexFacts.
Context {IT : IndexType}.

Lemma index_modulus_nonzero : index_modulus <> 0.
Proof. unfold index_modulus. apply N.pow_nonzero. discriminate. Qed.

Lemma wrap_small (x : N) : x < index_modulus -> wrap x = x.
Proof. apply N.mod_small. Qed.

Lemma wrap_lt (x : N) : wrap x < index_modulus.
Proof. apply N.mod_lt, index_modulus_nonzero. Qed.

Lemma index_succ_wrap (x : N) : index_succ (wrap x) = wrap (x + 1).
Proof.
  unfold index_succ, wrap.
  rewrite N.Div0.add_mod_idemp_l. reflexivity.
Qed.

Lemma index_succ_small (x : N) : x + 1 < index_modulus -> index_succ x = x + 1.
Proof. intros H. unfold index_succ. now apply wrap_small. Qed.

Lemma push_consecutive_spec (count : nat) :
  forall (i : N) (v : list N),
    push_consecutive count (wrap i) v
    = (v ++ map (fun k => wrap (i + N.of_nat k)) (seq 0 count),
       wrap (i + N.of_nat count)).
Proof.
  induction count as [|count IH]; intros i v; cbn [push_consecutive seq map].
  - now rewrite app_nil_r, N.add_0_r.
  - rewrite index_succ_wrap, IH, <- app_assoc. cbn [app].
    rewrite N.add_0_r. f_equal.
    + do 2 f_equal. rewrite <- seq_shift, map_map. apply map_ext.
      intros k. f_equal. lia.
    + f_equal. lia.
Qed.

Lemma expand_blocks_from (blocksize : N) (blocks : list N) :
  forall acc,
    fold_left
      (fun v blk =>
         fst (push_consecutive (N.to_nat blocksize) (index_mul blk blocksize) v))
      blocks acc
    = acc ++ block_expansion blocksize blocks.
Proof.
  induction blocks as [|r t IH]; intros acc; cbn [fold_left].
  - unfold block_expansion. cbn. now rewrite app_nil_r.
  - rewrite IH. unfold index_mul. rewrite push_consecutive_spec. cbn [fst].
    unfold block_expansion. cbn [flat_map]. now rewrite <- app_assoc.
Qed.

Lemma expand_blocks_spec (blocksize : N) (blocks : list N) :
  expand_blocks blocksize blocks = block_expansion blocksize blocks.
Proof. unfold expand_blocks. now rewrite expand_blocks_from. Qed.

Lemma size_block_expansion (blocksize : N) (blocks : list N) :
  size (block_expansion blocksize blocks) = size blocks * blocksize.
Proof.
  unfold size, block_expansion.
  induction blocks as [|r t IH]; cbn [flat_map length].
  - reflexivity.
  - rewrite length_app. unfold block_indices at 1.
    rewrite length_map, length_seq. lia.
Qed.

Lemma block_indices_exact (blocksize r : N) :
  r * blocksize + blocksize <= index_modulus ->
  block_indices blocksize r
  = map (fun v => r * blocksize + N.of_nat v) (seq 0 (N.to_nat blocksize)).
Proof.
  intros H. unfold block_indices. apply map_ext_in. intros v Hv.
  apply in_seq in Hv. apply wrap_small. lia.
Qed.
End IndexFacts.

Section BlockInserterFacts.
Variables T SparsityPattern : Type.
Context {IT : IndexType}.
Variable add_matrix :
  DenseMatrix T -> list N -> list N ->
  SparseMatrix T SparsityPattern -> result (SparseMatrix T SparsityPattern).
Implicit Types (self : SparseMatrix T SparsityPattern) (dm : DenseMatrix T).

(** The checks of [add_block_matrix] in the order in which they are
    made. *)
Lemma add_block_matrix_cases self dm (brows bcols : list N) :
  add_block_matrix add_matrix self dm brows bcols
  = if size brows =? 0 then Fatal DivideByZero
    else if size bcols =? 0 then Fatal DivideByZero
    else let blocksize := dm_m dm / size brows in
         if negb (blocksize =? dm_n dm / size bcols) then Fatal AssertionFailure
         else if negb (blocksize <? index_modulus) then Fatal AssertionFailure
         else if blocksize =? 0 then Fatal DivideByZero
         else if negb (dm_m dm mod blocksize =? 0) then Fatal AssertionFailure
         else if negb (dm_n dm mod blocksize =? 0) then Fatal AssertionFailure
         else add_matrix dm (block_expansion blocksize brows)
                         (block_expansion blocksize bcols) self.
Proof.
  unfold add_block_matrix, udiv.
  destruct (size brows =? 0); [reflexivity|]. cbn [bind].
  destruct (size bcols =? 0); [reflexivity|]. cbn [bind].
  unfold libmesh_assert_equal_to at 1. unfold libmesh_assert at 1.
  destruct (dm_m dm / size brows =? dm_n dm / size bcols); [|reflexivity].
  cbn [bind negb]. unfold cast_int, libmesh_assert.
  destruct (dm_m dm / size brows <? index_modulus) eqn:Hlt; [|reflexivity].
  cbn [bind negb]. apply N.ltb_lt in Hlt. rewrite (wrap_small Hlt).
  unfold umod.
  destruct (dm_m dm / size brows =? 0); [reflexivity|]. cbn [bind].
  unfold libmesh_assert_equal_to, libmesh_assert.
  destruct (dm_m dm mod (dm_m dm / size brows) =? 0); [|reflexivity].
  cbn [bind negb].
  destruct (dm_n dm mod (dm_m dm / size brows) =? 0); [|reflexivity].
  cbn [bind negb]. now rewrite !expand_blocks_spec.
Qed.
End BlockInserterFacts.

Section BlockInserterClaims.
Variables T SparsityPattern : Type.
Context {IT : IndexType}.
Variable add_matrix :
  DenseMatrix T -> list N -> list N ->
  SparseMatrix T SparsityPattern -> result (SparseMatrix T SparsityPattern).
Implicit Types (self : SparseMatrix T SparsityPattern) (dm : DenseMatrix T).


(** X20. With non-empty index sequences, [add_block_matrix] is the
    assertion fault whenever the two quotients differ, and whenever
    the block size [dm.m() / brows.size()] is at least 1 and does not
    divide [dm.m()] or does not divide [dm.n()]. *)
Theorem add_block_matrix_rejects :
  forall self dm (brows bcols : list N),
    size brows <> 0 -> size bcols <> 0 ->
    (dm_m dm / size brows <> dm_n dm / size bcols
     \/ (1 <= dm_m dm / size brows
         /\ (dm_m dm mod (dm_m dm / size brows) <> 0
             \/ dm_n dm mod (dm_m dm / size brows) <> 0))) ->
    add_block_matrix add_matrix self dm brows bcols = Fatal AssertionFailure.
Proof.
  intros self dm brows bcols Hbr Hbc H.
  rewrite add_block_matrix_cases.
  apply N.eqb_neq in Hbr, Hbc. rewrite Hbr, Hbc. cbv zeta.
  destruct (dm_m dm / size brows =? dm_n dm / size bcols) eqn:E; cbn [negb].
  2:{ reflexivity. }
  apply N.eqb_eq in E. destruct H as [H|[Hpos H]]; [contradiction|].
  destruct (dm_m dm / size brows <? index_modulus); cbn [negb]; [|reflexivity].
  assert (Hnz : (dm_m dm / size brows =? 0) = false) by (apply N.eqb_neq; lia).
  rewrite Hnz.
  destruct (dm_m dm mod (dm_m dm / size brows) =? 0) eqn:E1; cbn [negb];
    [|reflexivity].
  destruct (dm_n dm mod (dm_m dm / size brows) =? 0) eqn:E2; cbn [negb];
    [|reflexivity].
  apply N.eqb_eq in E1, E2. destruct H; contradiction.
Qed.

(** C9 (amended). [add_block_matrix] completes only when [brows] and
    [bcols] are non-empty and the block size is at least 1.  An empty
    [brows] or [bcols] is a division by zero.  With both non-empty
    and [dm.m() < brows.size()] (block size 0), the first assertion
    rejects the input when [dm.n() / bcols.size()] is not 0, and the
    remainder check divides by zero when it is 0. *)
Theorem add_block_matrix_partial :
  forall self dm (brows bcols : list N),
    (brows = [] ->
     add_block_matrix add_matrix self dm brows bcols = Fatal DivideByZero)
    /\ (bcols = [] ->
        add_block_matrix add_matrix self dm brows bcols = Fatal DivideByZero)
    /\ (brows <> [] -> bcols <> [] -> dm_m dm < size brows ->
        (dm_n dm / size bcols = 0 ->
         add_block_matrix add_matrix self dm brows bcols = Fatal DivideByZero)
        /\ (dm_n dm / size bcols <> 0 ->
            add_block_matrix add_matrix self dm brows bcols
            = Fatal AssertionFailure))
    /\ (forall self', add_block_matrix add_matrix self dm brows bcols = Done self' ->
                      brows <> [] /\ bcols <> [] /\ 1 <= dm_m dm / size brows).
Proof.
  intros self dm brows bcols. rewrite add_block_matrix_cases.
  assert (Hsz : forall (l : list N), (size l =? 0) = false <-> l <> []).
  { intros l. rewrite N.eqb_neq. unfold size.
    destruct l; cbn [length]; split; intros; try congruence; lia. }
  split; [|split; [|split]].
  - intros ->. reflexivity.
  - intros ->. cbn [size length N.of_nat N.eqb]. now destruct (size brows =? 0).
  - intros Hbr Hbc Hlt. apply Hsz in Hbr, Hbc. rewrite Hbr, Hbc. cbv zeta.
    rewrite (N.div_small _ _ Hlt).
    split; intros H.
    + rewrite H. cbn [N.eqb negb].
      assert (E : (0 <? index_modulus) = true)
        by (apply N.ltb_lt; pose proof index_modulus_nonzero; lia).
      now rewrite E.
    + assert (E : (0 =? dm_n dm / size bcols) = false) by (apply N.eqb_neq; lia).
      rewrite E. reflexivity.
  - intros self'.
    destruct (size brows =? 0) eqn:Hbr; [discriminate|].
    destruct (size bcols =? 0) eqn:Hbc; [discriminate|]. cbv zeta.
    destruct (negb (dm_m dm / size brows =? dm_n dm / size bcols)); [discriminate|].
    destruct (negb (dm_m dm / size brows <? index_modulus)); [discriminate|].
    destruct (dm_m dm / size brows =? 0) eqn:Hbs; [discriminate|].
    intros _. apply Hsz in Hbr, Hbc. apply N.eqb_neq in Hbs.
    split; [assumption|]. split; [assumption|].
    revert Hbs. generalize (dm_m dm / size brows). intros q Hq. lia.
Qed.
End BlockInserterClaims.

(** C4. A 6 by 6 element matrix with four block rows and four block
    columns is not rejected, although both divisions leave the
    remainder 2: the block size is 6 / 4 = 1, the remainder checks
    take [dm.m() % blocksize] and [dm.n() % blocksize], which are 0,
    and [add_matrix] is called with four indices a side.  This holds
    for every scalar type, every content of the element matrix, every
    matrix object and every [add_matrix]. *)
Theorem add_block_matrix_inexact_division_accepted :
  forall (T SparsityPattern : Type)
         (add_matrix :
            DenseMatrix T -> list N -> list N ->
            SparseMatrix T SparsityPattern ->
            result (SparseMatrix T SparsityPattern))
         (self : SparseMatrix T SparsityPattern) (values : list T),
    let dm := {| dm_m := 6; dm_n := 6; dm_val := values |} in
    let blocks := [0; 1; 2; 3] in
    dm_m dm mod size blocks = 2
    /\ dm_n dm mod size blocks = 2
    /\ dm_m dm / size blocks = dm_n dm / size blocks
    /\ add_block_matrix (IT := index32) add_matrix self dm blocks blocks
       = add_matrix dm [0; 1; 2; 3] [0; 1; 2; 3] self.
Proof.
  intros T SparsityPattern add_matrix self values dm blocks.
  split; [reflexivity|]. split; [reflexivity|]. split; [reflexivity|].
  rewrite add_block_matrix_cases. reflexivity.
Qed.

(* ================================================================== *)
(** ** The loops of print *)
(* ================================================================== *)

Section LoopFacts.
Context {IT : IndexType}.

(** With enough fuel, the loop [for (i = first; i != last; ++i)]
    visits the rows [[first, last)] when [first <= last]. *)
Lemma for_ne_foreach {S : Type} (body : N -> S -> result S) (last : N) :
  last < index_modulus ->
  forall (fuel : nat) (i : N) (s : S),
    i <= last -> (N.to_nat (last - i) < fuel)%nat ->
    for_ne fuel i last body s = foreach (IntRange i last) body s.
Proof.
  intros Hlast. induction fuel as [|fuel IH]; intros i s Hi Hfuel; [lia|].
  cbn [for_ne]. destruct (i =? last) eqn:E.
  - apply N.eqb_eq in E. subst i. now rewrite IntRange_empty by lia.
  - apply N.eqb_neq in E. rewrite IntRange_cons by lia. cbn [foreach].
    destruct (body i s) as [s'| |]; cbn [bind]; try reflexivity.
    rewrite index_succ_small by lia. apply IH; lia.
Qed.

(** With enough fuel, the loop [for (; i <= last; ++i)] visits the
    rows [[i, last]] and leaves the counter at [last + 1], when
    [last + 1] is an index. *)
Lemma for_le_foreach {S : Type} (body : N -> S -> result S) (last : N) :
  last + 1 < index_modulus ->
  forall (fuel : nat) (i : N) (s : S),
    i <= last + 1 -> (N.to_nat (last + 1 - i) < fuel)%nat ->
    for_le fuel i last body s
    = (s' <- foreach (IntRange i (last + 1)) body s ;; Done (last + 1, s')).
Proof.
  intros Hlast. induction fuel as [|fuel IH]; intros i s Hi Hfuel; [lia|].
  cbn [for_le]. destruct (i <=? last) eqn:E.
  - apply N.leb_le in E. rewrite IntRange_cons by lia. cbn [foreach].
    destruct (body i s) as [s'| |]; cbn [bind]; try reflexivity.
    rewrite index_succ_small by lia. apply IH; lia.
  - apply N.leb_gt in E. assert (i = last + 1) by lia. subst i.
    now rewrite IntRange_empty by lia.
Qed.
End LoopFacts.

Section TripletFacts.
Variable T : Type.

Lemma rows_of_app (a b : list (N * N * T)) :
  rows_of (a ++ b) = rows_of a ++ rows_of b.
Proof. apply map_app. Qed.

Lemma cols_of_app (a b : list (N * N * T)) :
  cols_of (a ++ b) = cols_of a ++ cols_of b.
Proof. apply map_app. Qed.

Lemma values_of_app (a b : list (N * N * T)) :
  values_of (a ++ b) = values_of a ++ values_of b.
Proof. apply map_app. Qed.

Lemma sizes_of (l : list (N * N * T)) :
  size (rows_of l) = size l /\ size (cols_of l) = size l
  /\ size (values_of l) = size l.
Proof. unfold size, rows_of, cols_of, values_of. now rewrite !length_map. Qed.
End TripletFacts.

Section CollectFacts.
Variables T SparsityPattern : Type.
Context {ST : Scalar T} {IT : IndexType}.
Implicit Types self : SparseMatrix T SparsityPattern.

(** The inner loop of a process that is not the root appends the
    nonzero triplets of row [i]. *)
Lemma collect_row_spec self (i : N) (acc : list (N * N * T)) :
  collect_row self i (rows_of acc, cols_of acc, values_of acc)
  = let acc' := acc ++ filter (fun e => nonzero (snd e)) (row_entries self i) in
    Done (rows_of acc', cols_of acc', values_of acc').
Proof.
  unfold collect_row, row_entries. cbv zeta.
  generalize (make_range (n self)) as cols. intros cols. revert acc.
  induction cols as [|j cols IH]; intros acc; cbn [foreach map filter].
  - now rewrite app_nil_r.
  - cbn [snd]. destruct (nonzero (entry self i j)); cbn [bind].
    + specialize (IH (acc ++ [(i, j, entry self i j)])).
      rewrite rows_of_app, cols_of_app, values_of_app in IH. cbn in IH.
      rewrite IH, <- app_assoc. reflexivity.
    + apply IH.
Qed.

Lemma collect_rows_spec self (rows : list N) :
  forall acc,
    foreach rows (collect_row self) (rows_of acc, cols_of acc, values_of acc)
    = let acc' := acc ++ filter (fun e => nonzero (snd e)) (entries self rows) in
      Done (rows_of acc', cols_of acc', values_of acc').
Proof.
  induction rows as [|i rows IH]; intros acc; cbn [foreach entries flat_map].
  - cbn. now rewrite app_nil_r.
  - rewrite collect_row_spec. cbv zeta. cbn [bind]. rewrite IH. cbv zeta.
    unfold entries. now rewrite filter_app, app_assoc.
Qed.

(** What a process that is not the root does: it sends the rows,
    the columns and the values of its nonzero triplets to rank 0. *)
Lemma print_nonroot self (d : DofMap SparsityPattern) (fuel : nat)
      (sparse : bool) (w : world T) :
  initialized self = true ->
  _dof_map self = Some d ->
  processor_id self <> 0 ->
  first_dof d <= end_dof d ->
  end_dof d < index_modulus ->
  (N.to_nat (end_dof d - first_dof d) < fuel)%nat ->
  print fuel self sparse w
  = let B := nonzero_triplets self (first_dof d) (end_dof d) in
    Done (send 0 (ValuePacket (values_of B))
            (send 0 (IndexPacket T (cols_of B))
               (send 0 (IndexPacket T (rows_of B)) w))).
Proof.
  intros Hini Hd Hp Hle Hlt Hfuel. unfold print.
  rewrite Hini, Hd. cbn [libmesh_assert bind].
  apply N.eqb_neq in Hp. rewrite Hp.
  rewrite for_ne_foreach by assumption.
  change (@nil N, @nil N, @nil T)
    with (rows_of (@nil (N * N * T)), cols_of (@nil (N * N * T)),
          values_of (@nil (N * N * T))).
  rewrite collect_rows_spec. cbv zeta. cbn [bind app]. reflexivity.
Qed.
End CollectFacts.

Section OwnRowFacts.
Variables T SparsityPattern : Type.
Context {ST : Scalar T} {IT : IndexType}.
Implicit Types self : SparseMatrix T SparsityPattern.

Lemma flat_map_if_filter {A B : Type} (p : A -> bool) (g : A -> list B)
      (l : list A) :
  flat_map (fun x => if p x then g x else []) l = flat_map g (filter p l).
Proof.
  induction l as [|x l IH]; cbn [flat_map filter]; [reflexivity|].
  destruct (p x); cbn [flat_map app]; now rewrite IH.
Qed.

(** What one row of the root's own range adds to the stream. *)
Lemma print_own_row_sparse self (i : N) (w : world T) :
  print_own_row self true i w
  = Done (put (flat_map (@triplet_line T)
                 (filter (fun e => nonzero (snd e)) (row_entries self i))) w).
Proof.
  unfold print_own_row, row_entries.
  rewrite foreach_put
    with (g := fun j => if nonzero (entry self i j)
                        then triplet_line (i, j, entry self i j) else []).
  - f_equal. f_equal.
    rewrite <- flat_map_if_filter, flat_map_of_map. reflexivity.
  - intros j w0 _. cbv zeta. destruct (nonzero (entry self i j)).
    + reflexivity.
    + now rewrite put_nil.
Qed.

Lemma print_own_row_dense self (i : N) (w : world T) :
  print_own_row self false i w
  = Done (put (dense_line (map (entry self i) (make_range (n self)))) w).
Proof.
  unfold print_own_row.
  rewrite foreach_put with (g := fun j => dense_field (entry self i j))
    by reflexivity.
  cbn [bind]. rewrite put_put. unfold dense_line.
  now rewrite flat_map_of_map.
Qed.

Lemma print_own_rows_sparse self (rows : list N) (w : world T) :
  foreach rows (print_own_row self true) w
  = Done (put (flat_map (@triplet_line T)
                 (filter (fun e => nonzero (snd e)) (entries self rows))) w).
Proof.
  rewrite foreach_put
    with (g := fun i => flat_map (@triplet_line T)
                          (filter (fun e => nonzero (snd e)) (row_entries self i))).
  - f_equal. f_equal. unfold entries.
    induction rows as [|i rows IH]; cbn [flat_map filter]; [reflexivity|].
    now rewrite filter_app, flat_map_app, IH.
  - intros i w0 _. apply print_own_row_sparse.
Qed.

Lemma print_own_rows_dense self (rows : list N) (w : world T) :
  foreach rows (print_own_row self false) w
  = Done (put (dense_block (table (entry self) rows (make_range (n self)))) w).
Proof.
  rewrite foreach_put
    with (g := fun i => dense_line (map (entry self i) (make_range (n self)))).
  - f_equal. f_equal. unfold dense_block, table.
    now rewrite flat_map_of_map.
  - intros i w0 _. apply print_own_row_dense.
Qed.

Lemma In_nonzero_triplets self (first last i j : N) (c : T) :
  In (i, j, c) (nonzero_triplets self first last)
  <-> (first <= i < last /\ j < n self /\ c = entry self i j
       /\ scalar_ne c scalar_zero = true).
Proof.
  unfold nonzero_triplets, entries, row_entries.
  rewrite filter_In, in_flat_map. cbn [snd]. unfold nonzero. split.
  - intros [(i' & Hi' & Hin) Hnz]. apply In_IntRange in Hi'.
    apply in_map_iff in Hin. destruct Hin as (j' & Heq & Hj').
    apply In_IntRange in Hj'. inversion Heq; subst. repeat split; try lia.
    assumption.
  - intros (Hi & Hj & -> & Hnz). split; [|assumption].
    exists i. split; [now apply In_IntRange|].
    apply in_map_iff. exists j. split; [reflexivity|].
    apply In_IntRange. lia.
Qed.

(** C10. The test that decides whether an entry is printed as a
    triplet by the root, or collected and sent by another process,
    is the comparison of the value with zero and nothing else: a
    process that is not the root sends exactly the triplets of its
    rows whose value compares unequal to zero (in either mode), the
    root prints exactly those of its own rows in sparse mode, and a
    triplet is among them if and only if it is an entry of a row of
    the range, in a column of the matrix, whose value compares
    unequal to zero. *)
Theorem print_nonzero_test :
  forall self (d : DofMap SparsityPattern) (fuel : nat) (w : world T),
    initialized self = true ->
    _dof_map self = Some d ->
    first_dof d <= end_dof d ->
    end_dof d < index_modulus ->
    (N.to_nat (end_dof d - first_dof d) < fuel)%nat ->
    let B := nonzero_triplets self (first_dof d) (end_dof d) in
    (processor_id self <> 0 ->
     forall sparse,
       print fuel self sparse w
       = Done (send 0 (ValuePacket (values_of B))
                 (send 0 (IndexPacket T (cols_of B))
                    (send 0 (IndexPacket T (rows_of B)) w))))
    /\ for_ne fuel (first_dof d) (end_dof d) (print_own_row self true) w
       = Done (put (flat_map (@triplet_line T) B) w)
    /\ (processor_id self = 0 -> n_processors self = 1 -> first_dof d = 0 ->
        print fuel self true w = Done (put (flat_map (@triplet_line T) B) w))
    /\ (forall i j c,
           In (i, j, c) B
           <-> (first_dof d <= i < end_dof d /\ j < n self
                /\ c = entry self i j /\ scalar_ne c scalar_zero = true)).
Proof.
  intros self d fuel w Hini Hd Hle Hlt Hfuel B.
  assert (Hown : for_ne fuel (first_dof d) (end_dof d) (print_own_row self true) w
                 = Done (put (flat_map (@triplet_line T) B) w)).
  { rewrite for_ne_foreach by assumption. apply print_own_rows_sparse. }
  split; [|split; [|split]].
  - intros Hp sparse. now apply print_nonroot.
  - exact Hown.
  - intros Hp HP Hf. unfold print. rewrite Hini, Hd. cbn [libmesh_assert bind].
    rewrite Hp, HP. cbn [N.eqb]. unfold libmesh_assert_equal_to.
    rewrite Hf in *. cbn [N.eqb libmesh_assert bind].
    rewrite Hown. cbn [bind]. reflexivity.
  - intros i j c. apply In_nonzero_triplets.
Qed.
End OwnRowFacts.

(* ================================================================== *)
(** ** Receiving on the root *)
(* ================================================================== *)

Section ReceiveFacts.
Variables T SparsityPattern : Type.
Context {ST : Scalar T} {IT : IndexType}.
Implicit Types self : SparseMatrix T SparsityPattern.

Lemma received_os p jbuf (cbuf : list T) rest (w : world T) :
  os (received p jbuf cbuf rest w) = os w.
Proof. reflexivity. Qed.

Lemma received_outbox p jbuf (cbuf : list T) rest (w : world T) :
  outbox (received p jbuf cbuf rest w) = outbox w.
Proof. reflexivity. Qed.

Lemma received_inbox p jbuf (cbuf : list T) rest (w : world T) q :
  inbox (received p jbuf cbuf rest w) q = if q =? p then rest else inbox w q.
Proof. unfold received, pop_inbox. cbn [inbox]. now destruct (q =? p). Qed.

(** The body of the loop over the ranks once the three messages of
    rank [p] are there. *)
Lemma receive_from_cases self (fuel : nat) (sparse : bool) (p currenti : N)
      (w : world T) (ibuf jbuf : list N) (cbuf : list T) (rest : list (packet T)) :
  inbox w p = IndexPacket T ibuf :: IndexPacket T jbuf :: ValuePacket cbuf :: rest ->
  receive_from fuel self sparse p (currenti, w)
  = (libmesh_assert_equal_to (size ibuf) (size jbuf) ;;
     libmesh_assert_equal_to (size ibuf) (size cbuf) ;;
     match ibuf with
     | [] => Done (currenti, received p jbuf cbuf rest w)
     | front :: _ =>
         libmesh_assert_greater_equal front currenti ;;
         libmesh_assert_greater_equal (last ibuf front) front ;;
         r <- for_le fuel currenti (last ibuf front)
                (print_received_row self sparse ibuf jbuf cbuf)
                (O, received p jbuf cbuf rest w) ;;
         Done (fst r, snd (snd r))
     end).
Proof.
  intros Hin. unfold receive_from, receive_indices at 1. rewrite Hin.
  cbn [bind]. unfold receive_indices. cbn [inbox pop_inbox].
  rewrite N.eqb_refl. cbn [bind]. unfold receive_values. cbn [inbox pop_inbox].
  rewrite N.eqb_refl. cbn [bind]. fold (received p jbuf cbuf rest w).
  destruct (libmesh_assert_equal_to (size ibuf) (size jbuf)); cbn [bind];
    try reflexivity.
  destruct (libmesh_assert_equal_to (size ibuf) (size cbuf)); cbn [bind];
    try reflexivity.
  destruct ibuf as [|front tl]; [reflexivity|].
  destruct (libmesh_assert_greater_equal front currenti); cbn [bind];
    try reflexivity.
  destruct (libmesh_assert_greater_equal (last (front :: tl) front) front);
    cbn [bind]; try reflexivity.
  destruct (for_le _ _ _ _ _) as [[c [b w']]| |]; reflexivity.
Qed.

(** C2. Once the three sequences of a rank are received with equal
    lengths: an empty buffer is accepted as it is, nothing is written
    and [currenti] stays; for a non-empty buffer, a first row index
    below [currenti] (so, in particular, below the last row written,
    which is [currenti - 1]) or a last row index below the first is
    the assertion fault. *)
Theorem receive_from_order_checks :
  forall self (fuel : nat) (sparse : bool) (p currenti : N) (w : world T)
         (ibuf jbuf : list N) (cbuf : list T) (rest : list (packet T)),
    inbox w p = IndexPacket T ibuf :: IndexPacket T jbuf :: ValuePacket cbuf :: rest ->
    size ibuf = size jbuf ->
    size ibuf = size cbuf ->
    (ibuf = [] ->
     exists w',
       receive_from fuel self sparse p (currenti, w) = Done (currenti, w')
       /\ os w' = os w /\ outbox w' = outbox w)
    /\ (forall front tl,
           ibuf = front :: tl ->
           front < currenti \/ last ibuf front < front ->
           receive_from fuel self sparse p (currenti, w) = Fatal AssertionFailure)
    /\ (forall front tl last_emitted,
           ibuf = front :: tl ->
           currenti = last_emitted + 1 ->
           front < last_emitted ->
           receive_from fuel self sparse p (currenti, w) = Fatal AssertionFailure).
Proof.
  intros self fuel sparse p currenti w ibuf jbuf cbuf rest Hin Hj Hc.
  erewrite receive_from_cases by exact Hin.
  unfold libmesh_assert_equal_to. rewrite <- Hj, <- Hc, N.eqb_refl.
  cbn [libmesh_assert bind].
  assert (Hfault : forall front tl,
             ibuf = front :: tl ->
             front < currenti \/ last ibuf front < front ->
             match ibuf with
             | [] => Done (currenti, received p jbuf cbuf rest w)
             | front :: _ =>
                 libmesh_assert_greater_equal front currenti ;;
                 libmesh_assert_greater_equal (last ibuf front) front ;;
                 r <- for_le fuel currenti (last ibuf front)
                        (print_received_row self sparse ibuf jbuf cbuf)
                        (O, received p jbuf cbuf rest w) ;;
                 Done (fst r, snd (snd r))
             end = Fatal AssertionFailure).
  { intros front tl -> H. unfold libmesh_assert_greater_equal, libmesh_assert.
    destruct (currenti <=? front) eqn:E1; cbn [bind]; [|reflexivity].
    destruct (front <=? last (front :: tl) front) eqn:E2; cbn [bind];
      [|reflexivity].
    apply N.leb_le in E1, E2. lia. }
  split; [|split].
  - intros ->. eexists. split; [reflexivity|]. split; reflexivity.
  - exact Hfault.
  - intros front tl last_emitted Hib Hcur Hlt.
    apply (Hfault front tl Hib). left. lia.
Qed.
End ReceiveFacts.

(* ================================================================== *)
(** ** The cursor through a received buffer *)
(* ================================================================== *)

Lemma nth_error_hd_skipn {A : Type} (k : nat) :
  forall l : list A, nth_error l k = hd_error (skipn k l).
Proof.
  induction k as [|k IH]; intros [|x l]; cbn; try reflexivity. apply IH.
Qed.

Lemma skipn_cons_S {A : Type} (k : nat) :
  forall (l : list A) (x : A) (t : list A),
    skipn k l = x :: t -> skipn (S k) l = t.
Proof.
  induction k as [|k IH]; intros [|y l] x t H; cbn in *; try discriminate.
  - now inversion H.
  - now apply IH with (x := x).
Qed.

Lemma skipn_app_length {A : Type} (a : list A) :
  forall (k : nat) (l b : list A),
    skipn k l = a ++ b -> skipn (k + length a) l = b.
Proof.
  induction a as [|x a IH]; intros k l b H; cbn [length].
  - now rewrite Nat.add_0_r.
  - rewrite Nat.add_succ_r. change (S (k + length a)) with (S k + length a)%nat.
    apply IH. now apply skipn_cons_S with (x := x).
Qed.

Lemma NoDup_IntRange (b e : N) : NoDup (IntRange b e).
Proof.
  remember (N.to_nat (e - b)) as k eqn:Hk. revert b Hk.
  induction k as [|k IH]; intros b Hk.
  - rewrite IntRange_empty by lia. constructor.
  - rewrite IntRange_cons by lia. constructor.
    + rewrite In_IntRange. lia.
    + apply IH. lia.
Qed.

Section CursorFacts.
Variables T SparsityPattern : Type.
Context {ST : Scalar T} {IT : IndexType}.
Implicit Types self : SparseMatrix T SparsityPattern.

Variable B : list (N * N * T).

Lemma triplet_here_spec (currentb : nat) (r j : N) :
  triplet_here (rows_of B) (cols_of B) currentb r j
  = Done match nth_error B currentb with
         | Some e => (fst (fst e) =? r) && (snd (fst e) =? j)
         | None => false
         end.
Proof.
  unfold triplet_here, vec_at, rows_of, cols_of, size.
  rewrite length_map, !nth_error_map.
  destruct (nth_error B currentb) as [e|] eqn:E; cbn [option_map].
  - assert (Hlt : (currentb < length B)%nat)
      by (apply nth_error_Some; congruence).
    assert (Hb : (N.of_nat currentb <? N.of_nat (length B)) = true)
      by (apply N.ltb_lt; lia).
    rewrite Hb. cbn [bind]. destruct (fst (fst e) =? r); reflexivity.
  - apply nth_error_None in E.
    assert (Hb : (N.of_nat currentb <? N.of_nat (length B)) = false)
      by (apply N.ltb_ge; lia).
    now rewrite Hb.
Qed.

(** The walk over the columns of row [r]: the triplets of the row
    that are in the buffer are consumed in order, and every other
    column is a miss. *)
Lemma scan_columns (r : N) (f : N -> T) (keep : N -> bool)
      (on_hit : N -> T -> list (token T)) (on_miss : list (token T))
      (body : N -> nat * world T -> result (nat * world T)) :
  (forall j currentb w,
      body j (currentb, w)
      = (hit <- triplet_here (rows_of B) (cols_of B) currentb r j ;;
         if (hit : bool) then
           c <- vec_at (values_of B) currentb ;;
           Done (S currentb, put (on_hit j c) w)
         else Done (currentb, put on_miss w))) ->
  forall (cols : list N) (later : list (N * N * T)) (currentb : nat) (w : world T),
    NoDup cols ->
    (forall e, In e later -> fst (fst e) <> r) ->
    skipn currentb B = map (fun j => (r, j, f j)) (filter keep cols) ++ later ->
    foreach cols body (currentb, w)
    = Done ((currentb + length (filter keep cols))%nat,
            put (flat_map (fun j => if keep j then on_hit j (f j) else on_miss) cols)
                w).
Proof.
  intros Hbody. induction cols as [|j cols IH];
    intros later currentb w Hnd Hlater Hskip; cbn [foreach filter flat_map].
  - cbn [length]. now rewrite Nat.add_0_r, put_nil.
  - inversion Hnd as [|? ? Hj Hnd']; subst.
    rewrite Hbody, triplet_here_spec, nth_error_hd_skipn. cbn [bind].
    cbn [filter] in Hskip. destruct (keep j) eqn:Hk.
    + cbn [map app] in Hskip. rewrite Hskip. cbn [hd_error fst snd].
      rewrite !N.eqb_refl. cbn [andb].
      assert (Hc : vec_at (values_of B) currentb = Done (f j)).
      { unfold vec_at, values_of. rewrite nth_error_map, nth_error_hd_skipn, Hskip.
        reflexivity. }
      rewrite Hc. cbn [bind].
      rewrite (IH later (S currentb) _ Hnd' Hlater (skipn_cons_S _ _ Hskip)).
      rewrite put_put. cbn [length]. f_equal. f_equal. lia.
    + assert (Hmiss : match hd_error (skipn currentb B) with
                      | Some e => (fst (fst e) =? r) && (snd (fst e) =? j)
                      | None => false
                      end = false).
      { destruct (hd_error (skipn currentb B)) as [e|] eqn:E; [|reflexivity].
        assert (Hin : In e (skipn currentb B)).
        { destruct (skipn currentb B); [discriminate|].
          cbn in E. inversion E. now left. }
        rewrite Hskip in Hin. apply in_app_or in Hin. destruct Hin as [Hin|Hin].
        - apply in_map_iff in Hin. destruct Hin as (j' & <- & Hj').
          apply filter_In in Hj'. cbn [fst snd].
          assert (j' <> j) by (intros ->; tauto).
          apply andb_false_intro2. now apply N.eqb_neq.
        - apply andb_false_intro1. apply N.eqb_neq. now apply Hlater. }
      rewrite Hmiss. cbn [bind].
      rewrite (IH later currentb _ Hnd' Hlater Hskip).
      now rewrite put_put.
Qed.

Variable f : N -> N -> T.
Variable keep : N -> N -> bool.

(** One row of the range of a received buffer. *)
Lemma print_received_row_spec self (sparse : bool) (r : N)
      (later : list (N * N * T)) (currentb : nat) (w : world T) :
  (forall e, In e later -> fst (fst e) <> r) ->
  skipn currentb B = kept_row f keep (make_range (n self)) r ++ later ->
  print_received_row self sparse (rows_of B) (cols_of B) (values_of B) r
                     (currentb, w)
  = Done ((currentb + length (kept_row f keep (make_range (n self)) r))%nat,
          put (received_row_tokens f keep (make_range (n self)) sparse r) w).
Proof.
  intros Hlater Hskip. unfold print_received_row, received_row_tokens, kept_row.
  unfold kept_row in Hskip. rewrite length_map.
  destruct sparse.
  - change (IntRange 0 (n self)) with (make_range (n self)).
    rewrite scan_columns
      with (r := r) (f := f r) (keep := keep r)
           (on_hit := fun j c => triplet_line (r, j, c)) (on_miss := [])
           (later := later);
      try assumption.
    + f_equal. f_equal. f_equal.
      rewrite flat_map_of_map.
      now rewrite <- (flat_map_if_filter (keep r)
                        (fun j => triplet_line (r, j, f r j))).
    + intros j cb w0.
      destruct (triplet_here (rows_of B) (cols_of B) cb r j) as [[|]| |];
        cbn [bind]; try reflexivity.
      now rewrite put_nil.
    + apply NoDup_IntRange.
  - rewrite scan_columns
      with (r := r) (f := f r) (keep := keep r)
           (on_hit := fun j c => dense_field c)
           (on_miss := dense_field scalar_zero)
           (later := later);
      try assumption.
    + cbn [bind]. rewrite put_put. f_equal. f_equal. f_equal.
      unfold dense_line. rewrite flat_map_of_map. f_equal.
      apply flat_map_ext. intros j. now destruct (keep r j).
    + intros j cb w0. reflexivity.
    + apply NoDup_IntRange.
Qed.

(** The rows of the range of a received buffer. *)
Lemma print_received_rows_spec self (sparse : bool) (rows : list N) :
  forall (beyond : list (N * N * T)) (currentb : nat) (w : world T),
    NoDup rows ->
    (forall e, In e beyond -> ~ In (fst (fst e)) rows) ->
    skipn currentb B = kept_rows f keep (make_range (n self)) rows ++ beyond ->
    foreach rows
      (print_received_row self sparse (rows_of B) (cols_of B) (values_of B))
      (currentb, w)
    = Done ((currentb + length (kept_rows f keep (make_range (n self)) rows))%nat,
            put (flat_map (received_row_tokens f keep (make_range (n self)) sparse)
                          rows) w).
Proof.
  induction rows as [|r rows IH]; intros beyond currentb w Hnd Hbeyond Hskip;
    cbn [foreach kept_rows flat_map].
  - cbn [length]. now rewrite Nat.add_0_r, put_nil.
  - inversion Hnd as [|? ? Hr Hnd']; subst.
    cbn [kept_rows flat_map] in Hskip. rewrite <- app_assoc in Hskip.
    rewrite print_received_row_spec
      with (later := flat_map (kept_row f keep (make_range (n self))) rows
                     ++ beyond);
      [| |exact Hskip].
    2:{ intros e He. apply in_app_or in He. destruct He as [He|He].
        - apply in_flat_map in He. destruct He as (r' & Hr' & He).
          apply in_map_iff in He. destruct He as (j & <- & _). cbn [fst].
          intros ->. contradiction.
        - intros Heq. apply (Hbeyond e He). left. now symmetry. }
    cbn [bind].
    rewrite IH with (beyond := beyond).
    + rewrite put_put. unfold kept_rows. now rewrite length_app, Nat.add_assoc.
    + assumption.
    + intros e He Hin. apply (Hbeyond e He). now right.
    + now apply skipn_app_length.
Qed.
End CursorFacts.

Lemma last_In {A : Type} (l : list A) (d : A) : l <> [] -> In (last l d) l.
Proof.
  induction l as [|x l IH]; intros H; [congruence|].
  destruct l as [|y l]; [now left|].
  right. apply IH. discriminate.
Qed.

Lemma last_app_nonempty {A : Type} (l1 l2 : list A) (d : A) :
  l2 <> [] -> last (l1 ++ l2) d = last l2 d.
Proof.
  intros H. induction l1 as [|x l1 IH]; [reflexivity|].
  cbn [app]. destruct (l1 ++ l2) eqn:E.
  - apply app_eq_nil in E. destruct E. contradiction.
  - rewrite <- IH. reflexivity.
Qed.

Lemma last_indep {A : Type} (l : list A) (d d' : A) :
  l <> [] -> last l d = last l d'.
Proof.
  induction l as [|x l IH]; intros H; [congruence|].
  destruct l as [|y l]; [reflexivity|]. apply IH. discriminate.
Qed.

Section KeptFacts.
Variables T SparsityPattern : Type.
Context {ST : Scalar T}.
Implicit Types self : SparseMatrix T SparsityPattern.

Variable f : N -> N -> T.
Variable cols : list N.

Lemma kept_rows_app (keep : N -> N -> bool) (rows1 rows2 : list N) :
  kept_rows f keep cols (rows1 ++ rows2)
  = kept_rows f keep cols rows1 ++ kept_rows f keep cols rows2.
Proof. unfold kept_rows. apply flat_map_app. Qed.

Lemma In_kept_rows (keep : N -> N -> bool) (rows : list N) (e : N * N * T) :
  In e (kept_rows f keep cols rows)
  <-> (In (fst (fst e)) rows /\ In (snd (fst e)) cols
       /\ keep (fst (fst e)) (snd (fst e)) = true
       /\ snd e = f (fst (fst e)) (snd (fst e))).
Proof.
  unfold kept_rows, kept_row. rewrite in_flat_map. split.
  - intros (r & Hr & He). apply in_map_iff in He. destruct He as (j & <- & Hj).
    apply filter_In in Hj. cbn [fst snd]. tauto.
  - destruct e as [[r j] c]. cbn [fst snd]. intros (Hr & Hj & Hk & ->).
    exists r. split; [assumption|]. apply in_map_iff. exists j.
    split; [reflexivity|]. now apply filter_In.
Qed.

Lemma kept_rows_ext (keep keep' : N -> N -> bool) (rows : list N) :
  (forall r j, In r rows -> In j cols -> keep r j = keep' r j) ->
  kept_rows f keep cols rows = kept_rows f keep' cols rows.
Proof.
  unfold kept_rows. induction rows as [|r rows IH]; intros H; cbn [flat_map];
    [reflexivity|].
  rewrite IH by (intros; apply H; [now right|assumption]). f_equal.
  unfold kept_row. f_equal. apply filter_ext_in. intros j Hj.
  apply H; [now left|assumption].
Qed.

Lemma kept_rows_none (keep : N -> N -> bool) (rows : list N) :
  (forall r j, In r rows -> In j cols -> keep r j = false) ->
  kept_rows f keep cols rows = [].
Proof.
  intros H. destruct (kept_rows f keep cols rows) as [|e l] eqn:E; [reflexivity|].
  assert (Hin : In e (kept_rows f keep cols rows)) by (rewrite E; now left).
  apply In_kept_rows in Hin. destruct Hin as (Hr & Hj & Hk & _).
  rewrite (H _ _ Hr Hj) in Hk. discriminate.
Qed.

(** The rows of a non-empty list of kept triplets over a range: the
    first one is in the range, the last one too, and the triplets
    are those of the rows up to the last one. *)
Lemma kept_rows_last (keep : N -> N -> bool) (a b : N) (e : N * N * T)
      (B' : list (N * N * T)) :
  kept_rows f keep cols (IntRange a b) = e :: B' ->
  let back := last (rows_of (e :: B')) (fst (fst e)) in
  a <= fst (fst e) /\ fst (fst e) <= back /\ back < b
  /\ e :: B' = kept_rows f keep cols (IntRange a (back + 1))
  /\ kept_rows f keep cols (IntRange (back + 1) b) = [].
Proof.
  intros HB back.
  assert (Hrows : forall x, In x (rows_of (e :: B')) -> a <= x < b).
  { intros x Hx. unfold rows_of in Hx. apply in_map_iff in Hx.
    destruct Hx as (e' & <- & He'). rewrite <- HB in He'.
    apply In_kept_rows in He'. destruct He' as (Hr & _).
    now apply In_IntRange in Hr. }
  assert (Hback : a <= back < b).
  { apply Hrows. apply last_In. discriminate. }
  assert (Hsplit : e :: B'
                   = kept_rows f keep cols (IntRange a (back + 1))
                     ++ kept_rows f keep cols (IntRange (back + 1) b)).
  { rewrite <- kept_rows_app, <- IntRange_split by lia. now symmetry. }
  assert (Hnil : kept_rows f keep cols (IntRange (back + 1) b) = []).
  { destruct (kept_rows f keep cols (IntRange (back + 1) b)) as [|e2 B2] eqn:E2;
      [reflexivity|exfalso].
    assert (Hl : back = last (rows_of (e2 :: B2)) (fst (fst e))).
    { unfold back. rewrite Hsplit. unfold rows_of at 1. rewrite map_app.
      apply last_app_nonempty. discriminate. }
    assert (Hin : In back (rows_of (e2 :: B2))).
    { rewrite Hl. apply last_In. discriminate. }
    unfold rows_of in Hin. apply in_map_iff in Hin.
    destruct Hin as (e' & He' & Hin). rewrite <- E2 in Hin.
    apply In_kept_rows in Hin. destruct Hin as (Hr & _).
    apply In_IntRange in Hr. lia. }
  rewrite Hnil, app_nil_r in Hsplit.
  assert (Hfront : In e (kept_rows f keep cols (IntRange a (back + 1))))
    by (rewrite <- Hsplit; now left).
  apply In_kept_rows in Hfront. destruct Hfront as (Hr & _).
  apply In_IntRange in Hr.
  repeat split; try assumption; try lia.
Qed.
End KeptFacts.

Section SenderFacts.
Variables T SparsityPattern : Type.
Context {ST : Scalar T} {IT : IndexType}.
Implicit Types self pr : SparseMatrix T SparsityPattern.

Lemma nonzero_triplets_kept pr (a b : N) :
  nonzero_triplets pr a b
  = kept_rows (entry pr) (fun r j => nonzero (entry pr r j))
              (make_range (n pr)) (IntRange a b).
Proof.
  assert (Hrow : forall r (cols : list N),
             filter (fun e : N * N * T => nonzero (snd e))
                    (map (fun j => (r, j, entry pr r j)) cols)
             = map (fun j => (r, j, entry pr r j))
                   (filter (fun j => nonzero (entry pr r j)) cols)).
  { intros r cols. induction cols as [|j cols IHc]; cbn [map filter];
      [reflexivity|].
    cbn [snd]. destruct (nonzero (entry pr r j)); cbn [map]; now rewrite IHc. }
  unfold nonzero_triplets, entries, kept_rows.
  induction (IntRange a b) as [|r rows IH]; cbn [flat_map filter];
    [reflexivity|].
  rewrite filter_app, IH. f_equal. apply Hrow.
Qed.

Lemma nonzero_triplets_from pr (currenti first last : N) :
  currenti <= first -> first <= last ->
  nonzero_triplets pr first last
  = kept_rows (entry pr) (sender_keep pr first)
              (make_range (n pr)) (IntRange currenti last).
Proof.
  intros H1 H2. rewrite nonzero_triplets_kept.
  rewrite (@IntRange_split currenti first last) by assumption.
  rewrite kept_rows_app.
  rewrite (@kept_rows_none _ _ _ (sender_keep pr first) (IntRange currenti first)).
  - cbn [app]. apply kept_rows_ext. intros r j Hr _.
    apply In_IntRange in Hr. unfold sender_keep.
    assert (E : (first <=? r) = true) by (apply N.leb_le; lia).
    now rewrite E.
  - intros r j Hr _. apply In_IntRange in Hr. unfold sender_keep.
    assert (E : (first <=? r) = false) by (apply N.leb_gt; lia).
    now rewrite E.
Qed.
End SenderFacts.

Section DrainFacts.
Variables T SparsityPattern : Type.
Context {ST : Scalar T} {IT : IndexType}.
Implicit Types self pr : SparseMatrix T SparsityPattern.

(** The root's step for one sender whose rows are [[first, last)],
    all at or after [currenti]: the rows from [currenti] to the last
    row with a triplet are written, and the rows after it, up to
    [last], have no triplet. *)
Lemma receive_from_sender self pr (first last : N) (fuel : nat) (sparse : bool)
      (p currenti : N) (w : world T) :
  n pr = n self ->
  currenti <= first -> first <= last -> last < index_modulus ->
  (N.to_nat (last - currenti) < fuel)%nat ->
  inbox w p = buffer_packets (nonzero_triplets pr first last) ->
  exists currenti' w',
    receive_from fuel self sparse p (currenti, w) = Done (currenti', w')
    /\ currenti <= currenti' <= last
    /\ os w' = os w
               ++ flat_map (received_row_tokens (entry pr) (sender_keep pr first)
                              (make_range (n self)) sparse)
                           (IntRange currenti currenti')
    /\ outbox w' = outbox w
    /\ (forall q, q <> p -> inbox w' q = inbox w q)
    /\ (forall r j, currenti' <= r < last -> j < n self ->
                    sender_keep pr first r j = false).
Proof.
  intros Hn Hc Hfl Hlast Hfuel Hin.
  remember (nonzero_triplets pr first last) as B eqn:EB.
  unfold buffer_packets in Hin.
  erewrite receive_from_cases by exact Hin.
  destruct (sizes_of B) as (H1 & H2 & H3).
  unfold libmesh_assert_equal_to. rewrite H1, H2, H3, N.eqb_refl.
  cbn [libmesh_assert bind].
  assert (Hinbox : forall q, q <> p ->
              inbox (received p (cols_of B) (values_of B) [] w) q = inbox w q).
  { intros q Hq. rewrite received_inbox. apply N.eqb_neq in Hq. now rewrite Hq. }
  destruct B as [|e B'].
  - cbn [rows_of map]. eexists currenti, _.
    split; [reflexivity|]. split; [lia|]. split.
    { rewrite IntRange_empty by lia. cbn [flat_map]. now rewrite app_nil_r. }
    split; [reflexivity|]. split; [exact Hinbox|].
    intros r j Hr Hj. unfold sender_keep.
    destruct (first <=? r) eqn:E; [|reflexivity]. cbn [andb].
    destruct (nonzero (entry pr r j)) eqn:Hnz; [exfalso|reflexivity].
    apply N.leb_le in E.
    assert (Hmem : In (r, j, entry pr r j) (nonzero_triplets pr first last)).
    { apply In_nonzero_triplets. repeat split; try lia. exact Hnz. }
    rewrite <- EB in Hmem. contradiction.
  - rewrite (nonzero_triplets_from pr Hc Hfl), Hn in EB. symmetry in EB.
    pose proof (kept_rows_last _ _ _ _ _ EB) as Hk. cbv zeta in Hk.
    cbn [rows_of map] in Hk |- *. fold (rows_of B') in Hk |- *.
    set (front := fst (fst e)) in *.
    set (back := List.last (front :: rows_of B') front) in *.
    destruct Hk as (Hfront & Hfb & Hback & HB & Hnil).
    unfold libmesh_assert_greater_equal, libmesh_assert.
    assert (E1 : (currenti <=? front) = true) by (apply N.leb_le; lia).
    assert (E2 : (front <=? back) = true) by (apply N.leb_le; lia).
    rewrite E1, E2. cbn [bind].
    rewrite for_le_foreach by lia.
    change (front :: rows_of B') with (rows_of (e :: B')).
    rewrite print_received_rows_spec
      with (f := entry pr) (keep := sender_keep pr first) (beyond := []).
    + cbn [bind fst snd].
      exists (back + 1), (put (flat_map
                                (received_row_tokens (entry pr) (sender_keep pr first)
                                   (make_range (n self)) sparse)
                                (IntRange currenti (back + 1)))
                             (received p (cols_of (e :: B')) (values_of (e :: B'))
                                       [] w)).
      split; [reflexivity|]. split; [lia|]. split; [reflexivity|].
      split; [reflexivity|]. split; [exact Hinbox|].
      intros r j Hr Hj.
      destruct (sender_keep pr first r j) eqn:Hkeep; [exfalso|reflexivity].
      assert (Hmem : In (r, j, entry pr r j)
                        (kept_rows (entry pr) (sender_keep pr first)
                                   (make_range (n self)) (IntRange (back + 1) last))).
      { apply In_kept_rows. cbn [fst snd]. repeat split; try assumption.
        - apply In_IntRange. lia.
        - apply In_IntRange. lia. }
      rewrite Hnil in Hmem. contradiction.
    + apply NoDup_IntRange.
    + intros e0 [].
    + cbn [skipn]. now rewrite app_nil_r.
Qed.

Lemma received_dense_table (f : N -> N -> T) (keep : N -> N -> bool)
      (cols rows : list N) :
  flat_map (received_row_tokens f keep cols false) rows
  = dense_block (table (fun r j => if keep r j then f r j else scalar_zero)
                       rows cols).
Proof.
  unfold dense_block, table, received_row_tokens.
  now rewrite flat_map_of_map.
Qed.
End DrainFacts.

Section TableFacts.
Variable V : Type.

Lemma table_app (f : N -> N -> V) (rows1 rows2 cols : list N) :
  table f (rows1 ++ rows2) cols = table f rows1 cols ++ table f rows2 cols.
Proof. unfold table. apply map_app. Qed.

Lemma table_ext (f g : N -> N -> V) (rows cols : list N) :
  (forall r j, In r rows -> In j cols -> f r j = g r j) ->
  table f rows cols = table g rows cols.
Proof.
  intros H. unfold table. apply map_ext_in. intros r Hr.
  apply map_ext_in. intros j Hj. now apply H.
Qed.

Lemma dense_block_app (a b : list (list V)) :
  dense_block (a ++ b) = dense_block a ++ dense_block b.
Proof. unfold dense_block. apply flat_map_app. Qed.
End TableFacts.

Section PartitionFacts.
Variables T SparsityPattern : Type.
Context {ST : Scalar T} {IT : IndexType}.
Implicit Types self pr : SparseMatrix T SparsityPattern.

Lemma contiguous_from_cons (k fd P mm nn : N) pr
      (rest : list (SparseMatrix T SparsityPattern)) :
  contiguous_from k fd P mm nn (pr :: rest) = true ->
  exists d,
    _dof_map pr = Some d /\ initialized pr = true /\ processor_id pr = k
    /\ n_processors pr = P /\ m pr = mm /\ n pr = nn
    /\ first_dof d = fd /\ fd <= end_dof d
    /\ contiguous_from (k + 1) (end_dof d) P mm nn rest = true.
Proof.
  cbn [contiguous_from]. destruct (_dof_map pr) as [d|]; [|discriminate].
  rewrite !andb_true_iff, !N.eqb_eq, N.leb_le.
  intros (((((((H1 & H2) & H3) & H4) & H5) & H6) & H7) & H8).
  exists d. rewrite H6 in H7. repeat split; assumption.
Qed.

Lemma contiguous_from_le (others : list (SparseMatrix T SparsityPattern)) :
  forall k fd P mm nn,
    contiguous_from k fd P mm nn others = true -> fd <= mm.
Proof.
  induction others as [|pr rest IH]; intros k fd P mm nn H.
  - cbn in H. now apply N.leb_le.
  - apply contiguous_from_cons in H.
    destruct H as (d & _ & _ & _ & _ & _ & _ & _ & Hle & Hrest).
    apply IH in Hrest. lia.
Qed.

Lemma contiguous_from_ge (others : list (SparseMatrix T SparsityPattern)) :
  forall k fd P mm nn pr d,
    contiguous_from k fd P mm nn others = true ->
    In pr others -> _dof_map pr = Some d -> fd <= first_dof d.
Proof.
  induction others as [|pr0 rest IH]; intros k fd P mm nn pr d H Hin Hd;
    [contradiction|].
  apply contiguous_from_cons in H.
  destruct H as (d0 & Hd0 & _ & _ & _ & _ & _ & Hf & Hle & Hrest).
  destruct Hin as [<-|Hin].
  - rewrite Hd0 in Hd. inversion Hd; subst. lia.
  - pose proof (IH _ _ _ _ _ _ _ Hrest Hin Hd). lia.
Qed.

Lemma contiguous_from_nth (others : list (SparseMatrix T SparsityPattern)) :
  forall k fd P mm nn idx pr,
    contiguous_from k fd P mm nn others = true ->
    nth_error others idx = Some pr ->
    exists d,
      _dof_map pr = Some d /\ initialized pr = true
      /\ processor_id pr = k + N.of_nat idx
      /\ first_dof d <= end_dof d /\ end_dof d <= mm
      /\ find (fun q => processor_id q =? k + N.of_nat idx) others = Some pr.
Proof.
  induction others as [|pr0 rest IH]; intros k fd P mm nn idx pr H Hn;
    [destruct idx; discriminate|].
  apply contiguous_from_cons in H.
  destruct H as (d0 & Hd0 & Hi0 & Hp0 & _ & _ & _ & Hf & Hle & Hrest).
  destruct idx as [|idx]; cbn [nth_error] in Hn.
  - inversion Hn; subst pr0. exists d0.
    pose proof (contiguous_from_le _ _ _ _ _ _ Hrest).
    cbn [find N.of_nat]. rewrite N.add_0_r, Hp0, N.eqb_refl.
    repeat split; try assumption; lia.
  - destruct (IH _ _ _ _ _ _ _ Hrest Hn) as (d & Hd & Hi & Hp & Hl & Hm & Hfind).
    exists d. replace (k + N.of_nat (S idx)) with (k + 1 + N.of_nat idx) by lia.
    repeat split; try assumption.
    cbn [find]. rewrite Hp0.
    assert (E : (k =? k + 1 + N.of_nat idx) = false) by (apply N.eqb_neq; lia).
    now rewrite E.
Qed.

Lemma global_shown_owner (others : list (SparseMatrix T SparsityPattern)) :
  forall k fd P mm nn pr d r j,
    contiguous_from k fd P mm nn others = true ->
    In pr others -> _dof_map pr = Some d ->
    first_dof d <= r < end_dof d ->
    global_shown others r j = normalize (entry pr r j).
Proof.
  induction others as [|pr0 rest IH]; intros k fd P mm nn pr d r j H Hin Hd Hr;
    [contradiction|].
  apply contiguous_from_cons in H.
  destruct H as (d0 & Hd0 & _ & _ & _ & _ & _ & Hf & Hle & Hrest).
  cbn [global_shown]. rewrite Hd0. destruct Hin as [<-|Hin].
  - rewrite Hd0 in Hd. inversion Hd; subst d0.
    assert (E : (first_dof d <=? r) && (r <? end_dof d) = true).
    { apply andb_true_intro. split; [apply N.leb_le|apply N.ltb_lt]; lia. }
    now rewrite E.
  - pose proof (contiguous_from_ge _ _ _ _ _ _ _ Hrest Hin Hd).
    assert (E : (first_dof d0 <=? r) && (r <? end_dof d0) = false).
    { apply andb_false_intro2. apply N.ltb_ge. lia. }
    rewrite E. now apply (IH _ _ _ _ _ _ _ _ _ Hrest Hin Hd).
Qed.

Lemma global_shown_unowned (others : list (SparseMatrix T SparsityPattern))
      (r j : N) :
  (forall pr d, In pr others -> _dof_map pr = Some d ->
                ~ (first_dof d <= r < end_dof d)) ->
  global_shown others r j = scalar_zero.
Proof.
  induction others as [|pr0 rest IH]; intros H; cbn [global_shown];
    [reflexivity|].
  destruct (_dof_map pr0) as [d0|] eqn:Hd0.
  - assert (E : (first_dof d0 <=? r) && (r <? end_dof d0) = false).
    { destruct ((first_dof d0 <=? r) && (r <? end_dof d0)) eqn:E;
        [exfalso|reflexivity].
      apply andb_prop in E. destruct E as [E1 E2].
      apply N.leb_le in E1. apply N.ltb_lt in E2.
      apply (H pr0 d0); [now left|assumption|lia]. }
    rewrite E. apply IH. intros pr d Hin. apply H. now right.
  - apply IH. intros pr d Hin. apply H. now right.
Qed.

(** What the root finds in its inbox for the rank at position
    [idx] of the other processes. *)
Lemma delivered_spec (others : list (SparseMatrix T SparsityPattern))
      (fuel : nat) (sparse : bool) (fd P mm nn : N) (idx : nat) pr
      (d : DofMap SparsityPattern) :
  contiguous_from 1 fd P mm nn others = true ->
  mm < index_modulus -> (N.to_nat mm < fuel)%nat ->
  nth_error others idx = Some pr -> _dof_map pr = Some d ->
  delivered fuel others sparse (1 + N.of_nat idx)
  = buffer_packets (nonzero_triplets pr (first_dof d) (end_dof d)).
Proof.
  intros H Hmm Hfuel Hn Hd.
  destruct (contiguous_from_nth _ _ _ _ _ _ _ H Hn)
    as (d' & Hd' & Hi & Hp & Hl & Hm & Hfind).
  rewrite Hd in Hd'. inversion Hd'; subst d'.
  unfold delivered. rewrite Hfind.
  rewrite print_nonroot with (d := d); try assumption; try lia.
  reflexivity.
Qed.
End PartitionFacts.

Section DensePrintFacts.
Variables T SparsityPattern : Type.
Context {ST : Scalar T} {IT : IndexType}.
Implicit Types self pr : SparseMatrix T SparsityPattern.

Lemma print_zero_rows self (rows : list N) (w : world T) :
  foreach rows (print_zero_row self) w
  = Done (put (dense_block (table (fun _ _ => scalar_zero) rows
                                  (make_range (n self)))) w).
Proof.
  rewrite foreach_put
    with (g := fun _ : N =>
                 dense_line (map (fun _ : N => scalar_zero) (make_range (n self)))).
  - f_equal. f_equal. unfold dense_block, table. now rewrite flat_map_of_map.
  - intros i w0 _. unfold print_zero_row.
    change (IntRange 0 (n self)) with (make_range (n self)).
    rewrite foreach_put with (g := fun _ : N => dense_field (@scalar_zero T _))
      by reflexivity.
    cbn [bind]. rewrite put_put. unfold dense_line.
    now rewrite flat_map_of_map.
Qed.

(** The loop over the ranks: with the rows of the remaining senders
    contiguous from [fd] on and [currenti] not beyond [fd], the loop
    writes the rows from [currenti] to the new [currenti] as the
    table [G] has them, when [G] is zero on the pending rows, is the
    normalized entry of its owner on an owned row, and is zero on a
    row without owner. *)
Lemma drain_ranks self (fuel : nat) (G : N -> N -> T) (P : N) :
  m self < index_modulus -> (N.to_nat (m self) < fuel)%nat ->
  forall (others : list (SparseMatrix T SparsityPattern))
         (k fd currenti : N) (w : world T),
    contiguous_from k fd P (m self) (n self) others = true ->
    currenti <= fd ->
    (forall idx pr d,
        nth_error others idx = Some pr -> _dof_map pr = Some d ->
        inbox w (k + N.of_nat idx)
        = buffer_packets (nonzero_triplets pr (first_dof d) (end_dof d))) ->
    (forall r j, currenti <= r < fd -> j < n self -> G r j = scalar_zero) ->
    (forall pr d r j,
        In pr others -> _dof_map pr = Some d ->
        first_dof d <= r < end_dof d -> j < n self ->
        G r j = normalize (entry pr r j)) ->
    (forall r j,
        fd <= r ->
        (forall pr d, In pr others -> _dof_map pr = Some d ->
                      ~ (first_dof d <= r < end_dof d)) ->
        j < n self -> G r j = scalar_zero) ->
    exists currenti' w',
      foreach (IntRange k (k + size others)) (receive_from fuel self false)
              (currenti, w)
      = Done (currenti', w')
      /\ currenti <= currenti' <= m self
      /\ os w' = os w ++ dense_block (table G (IntRange currenti currenti')
                                            (make_range (n self)))
      /\ (forall r j, currenti' <= r < m self -> j < n self -> G r j = scalar_zero).
Proof.
  intros Hm Hfuel. induction others as [|pr rest IH];
    intros k fd currenti w Hcont Hc Hinbox G1 G2 G3.
  - cbn in Hcont. apply N.leb_le in Hcont.
    exists currenti, w. unfold size. cbn [length N.of_nat].
    rewrite N.add_0_r, IntRange_empty by lia. cbn [foreach].
    split; [reflexivity|]. split; [lia|]. split.
    { rewrite IntRange_empty by lia. cbn. now rewrite app_nil_r. }
    intros r j Hr Hj. destruct (N.lt_ge_cases r fd) as [Hlt|Hge].
    + apply G1; [lia|assumption].
    + apply G3; try assumption. intros pr d [].
  - apply contiguous_from_cons in Hcont.
    destruct Hcont as (d & Hd & _ & _ & _ & _ & Hn & Hf & Hle & Hrest).
    pose proof (contiguous_from_le _ _ _ _ _ _ Hrest) as Hed.
    assert (Hsize : k + size (pr :: rest) = k + 1 + size rest)
      by (unfold size; cbn [length]; lia).
    rewrite Hsize, IntRange_cons by lia. cbn [foreach].
    destruct (@receive_from_sender _ _ _ _ self pr (first_dof d) (end_dof d)
                fuel false k currenti w)
      as (c1 & w1 & Hrun & Hc1 & Hos1 & _ & Hinb1 & Hz1);
      try assumption; try lia.
    { specialize (Hinbox O pr d eq_refl Hd). cbn [N.of_nat] in Hinbox.
      now rewrite N.add_0_r in Hinbox. }
    rewrite Hrun. cbn [bind].
    assert (Hpend : forall r j, c1 <= r < end_dof d -> j < n self ->
                                G r j = scalar_zero).
    { intros r j Hr Hj. destruct (N.lt_ge_cases r fd) as [Hlt|Hge].
      - apply G1; [lia|assumption].
      - rewrite (G2 pr d r j) by (try (now left); try assumption; lia).
        specialize (Hz1 r j Hr Hj). unfold sender_keep in Hz1.
        assert (E : (first_dof d <=? r) = true) by (apply N.leb_le; lia).
        rewrite E in Hz1. cbn [andb] in Hz1. unfold normalize. now rewrite Hz1. }
    destruct (IH (k + 1) (end_dof d) c1 w1) as (c2 & w2 & Hrun2 & Hc2 & Hos2 & Hz2);
      try assumption; try lia.
    { intros idx pr' d' Hnth Hd'. rewrite Hinb1 by lia.
      replace (k + 1 + N.of_nat idx) with (k + N.of_nat (S idx)) by lia.
      now apply Hinbox. }
    { intros pr' d' r j Hin. apply G2. now right. }
    { intros r j Hr Hno Hj. apply G3; try assumption; [lia|].
      intros pr' d' [<-|Hin] Hd'.
      - rewrite Hd in Hd'. inversion Hd'; subst d'. lia.
      - exact (Hno pr' d' Hin Hd'). }
    exists c2, w2. split; [exact Hrun2|]. split; [lia|]. split; [|exact Hz2].
    rewrite Hos2, Hos1, received_dense_table, <- app_assoc. f_equal.
    rewrite (@IntRange_split currenti c1 c2) by lia.
    rewrite table_app, dense_block_app. f_equal. f_equal.
    apply table_ext. intros r j Hr Hj.
    apply In_IntRange in Hr. apply In_IntRange in Hj.
    unfold sender_keep. destruct (N.lt_ge_cases r fd) as [Hlt|Hge].
    + assert (E : (first_dof d <=? r) = false) by (apply N.leb_gt; lia).
      rewrite E. cbn [andb]. symmetry. apply G1; lia.
    + assert (E : (first_dof d <=? r) = true) by (apply N.leb_le; lia).
      rewrite E. cbn [andb].
      rewrite (G2 pr d r j) by (try (now left); try assumption; lia).
      reflexivity.
Qed.

(** C1. When the processes' row ranges are contiguous by increasing
    rank from row 0 (and end at or before row [m()]), dense printing
    appends to the root's stream exactly [m()] lines of exactly
    [n()] fields, each field a value and a space, each line closed
    by a line end: the root's own rows with their entries as they
    are; then the rows of the other processes, where an entry that
    its owner sent is written as sent and every other entry is an
    explicit zero; and the rows that no process owns as rows of
    zeros up to row [m()]. *)
Theorem print_dense_shape :
  forall (root : SparseMatrix T SparsityPattern)
         (others : list (SparseMatrix T SparsityPattern))
         (fuel : nat) (os0 : list (token T)),
    row_partition (root :: others) = true ->
    (N.to_nat (m root) < fuel)%nat ->
    let rows := table (printed_dense root others)
                      (make_range (m root)) (make_range (n root)) in
    collective_print fuel (root :: others) false os0
    = Done (os0 ++ dense_block rows)
    /\ size rows = m root
    /\ Forall (fun row => size row = n root) rows.
Proof.
  intros root others fuel os0 Hpart Hfuel rows.
  split; [|apply table_shape].
  unfold row_partition in Hpart. apply andb_prop in Hpart.
  destruct Hpart as [Hm Hcont]. apply N.ltb_lt in Hm.
  apply contiguous_from_cons in Hcont.
  destruct Hcont as (d & Hd & Hini & Hp & HP & _ & _ & Hf & Hle & Hrest).
  pose proof (contiguous_from_le _ _ _ _ _ _ Hrest) as Hed.
  cbn [N.add] in Hrest.
  unfold collective_print, print. rewrite Hini, Hd, Hp.
  cbn [libmesh_assert bind N.eqb]. unfold libmesh_assert_equal_to.
  rewrite Hf. cbn [N.eqb libmesh_assert bind].
  rewrite for_ne_foreach by lia. rewrite print_own_rows_dense. cbn [bind].
  assert (HPr : IntRange 1 (n_processors root) = IntRange 1 (1 + size others)).
  { rewrite HP. unfold size. cbn [length]. f_equal. lia. }
  rewrite HPr.
  destruct (@drain_ranks root fuel (global_shown others) (size (root :: others))
              Hm Hfuel others 1 (end_dof d) (end_dof d)
              (put (dense_block (table (entry root) (IntRange 0 (end_dof d))
                                       (make_range (n root))))
                   {| os := os0;
                      inbox := delivered fuel others false;
                      outbox := [] |}))
    as (c & w' & Hrun & Hc & Hos & Hz).
  - exact Hrest.
  - lia.
  - intros idx pr dp Hnth Hdp. cbn [put inbox].
    now apply delivered_spec
      with (fd := end_dof d) (P := size (root :: others)) (mm := m root)
           (nn := n root).
  - intros r j Hr. lia.
  - intros pr dp r j Hin Hdp Hr _.
    now apply global_shown_owner
      with (k := 1) (fd := end_dof d) (P := size (root :: others))
           (mm := m root) (nn := n root) (d := dp).
  - intros r j _ Hno _. now apply global_shown_unowned.
  - rewrite Hrun. cbn [bind negb].
    rewrite for_ne_foreach by lia. rewrite print_zero_rows. cbn [bind].
    f_equal. unfold put. cbn [os]. rewrite Hos. cbn [put os].
    rewrite <- !app_assoc. f_equal.
    rewrite <- !dense_block_app. f_equal.
    subst rows. change (make_range (m root)) with (IntRange 0 (m root)).
    rewrite (@IntRange_split 0 (end_dof d) (m root)) by lia.
    rewrite (@IntRange_split (end_dof d) c (m root)) by lia.
    rewrite !table_app. f_equal; [|f_equal].
    + apply table_ext. intros r j Hr _. apply In_IntRange in Hr.
      unfold printed_dense, own_end. rewrite Hd.
      assert (E : (r <? end_dof d) = true) by (apply N.ltb_lt; lia).
      now rewrite E.
    + apply table_ext. intros r j Hr _. apply In_IntRange in Hr.
      unfold printed_dense, own_end. rewrite Hd.
      assert (E : (r <? end_dof d) = false) by (apply N.ltb_ge; lia).
      now rewrite E.
    + apply table_ext. intros r j Hr Hj. apply In_IntRange in Hr.
      apply In_IntRange in Hj.
      unfold printed_dense, own_end. rewrite Hd.
      assert (E : (r <? end_dof d) = false) by (apply N.ltb_ge; lia).
      rewrite E. symmetry. apply Hz; lia.
Qed.
End DensePrintFacts.

(* ================================================================== *)
(** ** The theorems at concrete inputs *)
(* ================================================================== *)

Ltac by_evaluation :=
  first [ reflexivity | discriminate
        | vm_compute; first [ reflexivity | discriminate ] ].



(** A 5 by 5 element matrix with two block rows and columns: block
    size 2 does not divide 5. *)
Lemma add_block_matrix_rejects_witness :
  add_block_matrix example_add_matrix example_self (ones 5 5) [0; 1] [0; 1]
  = Fatal AssertionFailure.
Proof.
  pose proof (add_block_matrix_rejects
                example_add_matrix example_self (ones 5 5) [0; 1] [0; 1]) as H.
  apply H.
  - by_evaluation.
  - by_evaluation.
  - right. split; [by_evaluation|]. left. by_evaluation.
Defined.

(** A 1 by 1 element matrix with two block rows and columns: block
    size 0, both quotients 0, and the remainder check divides by
    zero. *)
Lemma add_block_matrix_partial_witness :
  add_block_matrix example_add_matrix example_self (ones 1 1) [0; 1] [0; 1]
  = Fatal DivideByZero.
Proof.
  destruct (add_block_matrix_partial
              example_add_matrix example_self (ones 1 1) [0; 1] [0; 1])
    as (_ & _ & H & _).
  apply H; by_evaluation.
Defined.

(** A 1 by 4 element matrix with two block rows and one block
    column: block size 0, and the first assertion rejects the input
    before any remainder is taken. *)
Lemma add_block_matrix_blocksize_zero_rejected :
  let dm := ones 1 4 in
  let brows := [0; 1] in
  let bcols := [0] in
  dm_m dm < size brows
  /\ dm_m dm / size brows = 0
  /\ add_block_matrix example_add_matrix example_self dm brows bcols
     = Fatal AssertionFailure.
Proof. vm_compute. repeat split. Qed.

(** The two-process scenario, dense: the three lines 1 0 0, 0 2 0
    and 3 0 0. *)
Lemma print_dense_shape_witness :
  collective_print 4 [scenario_root; scenario_other] false []
  = Done (dense_block [[1; 0; 0]; [0; 2; 0]; [3; 0; 0]]%Z).
Proof.
  destruct (@print_dense_shape Z unit Z_scalar index32
              scenario_root [scenario_other] 4%nat []) as [H _].
  - vm_compute. reflexivity.
  - vm_compute. repeat constructor.
  - rewrite H. vm_compute. reflexivity.
Defined.

(** A buffer whose first row is 2 arrives when the rows up to 4 are
    written. *)
Lemma receive_from_order_checks_witness :
  receive_from 4 scenario_root false 1 (5, scenario_world) = Fatal AssertionFailure.
Proof.
  destruct (@receive_from_order_checks Z unit Z_scalar index32
              scenario_root 4%nat false 1 5 scenario_world [2] [0] [3%Z] [])
    as (_ & H & _).
  - reflexivity.
  - reflexivity.
  - reflexivity.
  - apply (H 2 []); [reflexivity|]. left. vm_compute. reflexivity.
Defined.

(** Rank 1 of the scenario sends its one nonzero triplet, (2, 0, 3),
    in either mode. *)
Lemma print_nonzero_test_witness :
  outbox_of (print 4 scenario_other true (quiet_world []))
  = [(0, IndexPacket Z [2]); (0, IndexPacket Z [0]); (0, ValuePacket [3%Z])].
Proof.
  destruct (@print_nonzero_test Z unit Z_scalar index32 scenario_other
              {| first_dof := 2; end_dof := 3; get_sparsity_pattern := None |}
              4%nat (quiet_world []))
    as (H & _).
  - reflexivity.
  - reflexivity.
  - vm_compute. discriminate.
  - vm_compute. reflexivity.
  - vm_compute. repeat constructor.
  - rewrite H by (vm_compute; discriminate). vm_compute. reflexivity.
Defined.

(* ================================================================== *)
(** ** Further properties: shared facts *)
(* ================================================================== *)

Section BuildCases.
Variables T SparsityPattern : Type.
Variable cfg : Config.
Variable new_storage : MatrixClass -> Communicator -> Storage T.

Lemma build_AUTOMATIC_cases (comm : Communicator) (solver_package : SolverPackage) :
  build SparsityPattern cfg new_storage comm solver_package AUTOMATIC
  = match vendor_class solver_package with
    | Some cls =>
        if compiled_in cfg cls
        then Done (Some (SparseMatrix_ctor SparsityPattern cls comm
                           (new_storage cls comm)))
        else @unrecognized T SparsityPattern solver_package
    | None => @unrecognized T SparsityPattern solver_package
    end.
Proof.
  destruct solver_package; cbn [build vendor_class compiled_in]; reflexivity.
Qed.
End BuildCases.

(* ================================================================== *)
(** ** Further properties: the attach operations *)
(* ================================================================== *)

Section AttachMore.
Variables T SparsityPattern : Type.
Implicit Types self : SparseMatrix T SparsityPattern.

(** X1. Attaching a DofMap and attaching a sparsity pattern commute:
    in either order the object ends with that DofMap and that
    pattern, whatever pattern the DofMap carries, and with every
    other field as it was. *)
Theorem attach_commute :
  forall self (dof_map : DofMap SparsityPattern) (sp : SparsityPattern),
    let a := attach_dof_map (attach_sparsity_pattern self sp) dof_map in
    let b := attach_sparsity_pattern (attach_dof_map self dof_map) sp in
    a = b
    /\ _dof_map a = Some dof_map
    /\ _sp a = Some sp
    /\ _dof_map b = Some dof_map
    /\ _sp b = Some sp
    /\ dynamic_class a = dynamic_class self
    /\ _communicator a = _communicator self
    /\ _is_initialized a = _is_initialized self
    /\ storage a = storage self.
Proof.
  intros self dof_map sp a b. subst a b.
  unfold attach_dof_map, attach_sparsity_pattern.
  destruct self as [cls comm dm [old|] ini st]; cbn; repeat split; reflexivity.
Qed.

(** X2. A second [attach_dof_map] replaces the DofMap but not a
    pattern the first one brought: after attaching [d1] (which has
    the pattern [s1]) to an object without pattern and then [d2], the
    DofMap is [d2] and the pattern is still [s1]. *)
Theorem attach_dof_map_twice :
  forall self (d1 d2 : DofMap SparsityPattern) (s1 : SparsityPattern),
    _sp self = None ->
    get_sparsity_pattern d1 = Some s1 ->
    _dof_map (attach_dof_map (attach_dof_map self d1) d2) = Some d2
    /\ _sp (attach_dof_map (attach_dof_map self d1) d2) = Some s1.
Proof.
  intros self d1 d2 s1 Hsp Hs1. unfold attach_dof_map.
  destruct self as [cls comm dm sp0 ini st]. cbn in Hsp. subst sp0.
  cbn. rewrite Hs1. cbn. split; reflexivity.
Qed.

(** X3. Attaching the same DofMap again changes nothing. *)
Theorem attach_dof_map_idempotent :
  forall self (dof_map : DofMap SparsityPattern),
    attach_dof_map (attach_dof_map self dof_map) dof_map
    = attach_dof_map self dof_map.
Proof.
  intros self dof_map. unfold attach_dof_map.
  destruct self as [cls comm dm [old|] ini st]; cbn; [reflexivity|].
  destruct (get_sparsity_pattern dof_map); reflexivity.
Qed.
End AttachMore.

(* ================================================================== *)
(** ** Further properties: the factory and the constructor *)
(* ================================================================== *)

Section BuildMore.
Variables T SparsityPattern : Type.
Context {ST : Scalar T} {IT : IndexType}.
Variable cfg : Config.
Variable new_storage : MatrixClass -> Communicator -> Storage T.

(** X4. Whenever [build] returns, the pointer is not null and the
    object is as the constructor leaves it: it has the communicator
    it was built with, no DofMap, no sparsity pattern, is not
    initialized, and is of a class that is compiled in. *)
Theorem build_returns_fresh :
  forall (comm : Communicator) (solver_package : SolverPackage)
         (matrix_build_type : MatrixBuildType)
         (p : unique_ptr (SparseMatrix T SparsityPattern)),
    build SparsityPattern cfg new_storage comm solver_package matrix_build_type
    = Done p ->
    exists obj,
      p = Some obj
      /\ _communicator obj = comm
      /\ _dof_map obj = None
      /\ _sp obj = None
      /\ _is_initialized obj = false
      /\ compiled_in cfg (dynamic_class obj) = true
      /\ storage obj = new_storage (dynamic_class obj) comm.
Proof.
  intros comm sp bt p H. destruct bt.
  - rewrite build_AUTOMATIC_cases in H.
    destruct (vendor_class sp) as [cls|]; [|discriminate].
    destruct (compiled_in cfg cls) eqn:E; [|discriminate].
    inversion H; subst p. eexists. split; [reflexivity|].
    cbn. repeat split. exact E.
  - cbn in H. inversion H; subst p. eexists. split; [reflexivity|].
    cbn. repeat split.
Qed.

(** X5. What [build] returns cannot be printed as it is: [print]
    fails its [initialized()] assertion, on every rank and in both
    modes. *)
Theorem build_then_print :
  forall (comm : Communicator) (solver_package : SolverPackage)
         (matrix_build_type : MatrixBuildType)
         (obj : SparseMatrix T SparsityPattern)
         (fuel : nat) (sparse : bool) (w : world T),
    build SparsityPattern cfg new_storage comm solver_package matrix_build_type
    = Done (Some obj) ->
    print fuel obj sparse w = Fatal AssertionFailure.
Proof.
  intros comm sp bt obj fuel sparse w H.
  assert (Hini : initialized obj = false).
  { destruct bt.
    - rewrite build_AUTOMATIC_cases in H.
      destruct (vendor_class sp) as [cls|]; [|discriminate].
      destruct (compiled_in cfg cls); [|discriminate].
      now inversion H.
    - cbn in H. now inversion H. }
  unfold print. now rewrite Hini.
Qed.

(** X6. The first [attach_dof_map] on what [build] returns always
    takes the pattern of the DofMap. *)
Theorem build_then_attach :
  forall (comm : Communicator) (solver_package : SolverPackage)
         (matrix_build_type : MatrixBuildType)
         (obj : SparseMatrix T SparsityPattern)
         (dof_map : DofMap SparsityPattern),
    build SparsityPattern cfg new_storage comm solver_package matrix_build_type
    = Done (Some obj) ->
    _dof_map (attach_dof_map obj dof_map) = Some dof_map
    /\ _sp (attach_dof_map obj dof_map) = get_sparsity_pattern dof_map.
Proof.
  intros comm sp bt obj dof_map H.
  assert (Hsp : _sp obj = None).
  { destruct bt.
    - rewrite build_AUTOMATIC_cases in H.
      destruct (vendor_class sp) as [cls|]; [|discriminate].
      destruct (compiled_in cfg cls); [|discriminate].
      now inversion H.
    - cbn in H. now inversion H. }
  unfold attach_dof_map. destruct obj as [cls c dm sp0 ini st].
  cbn in Hsp. subst sp0. cbn. split; reflexivity.
Qed.
End BuildMore.

(* ================================================================== *)
(** ** Further properties: the preconditions of print *)
(* ================================================================== *)

Section PrintMore.
Variables T SparsityPattern : Type.
Context {ST : Scalar T} {IT : IndexType}.
Implicit Types self : SparseMatrix T SparsityPattern.

(** X7. The order of the checks of [print]: an object that is not
    initialized fails the assertion, with or without DofMap; an
    initialized object without DofMap is the error "Error!  Trying to
    print a matrix with no dof_map set!"; on rank 0 a DofMap whose
    first row is not 0 fails the assertion.  Each of these is the
    outcome for every stream, every inbox, both modes and any fuel. *)
Theorem print_preconditions :
  forall self (fuel : nat) (sparse : bool) (w : world T),
    (initialized self = false ->
     print fuel self sparse w = Fatal AssertionFailure)
    /\ (initialized self = true -> _dof_map self = None ->
        print fuel self sparse w
        = Fatal (ErrorMsg
                   [MStr "Error!  Trying to print a matrix with no dof_map set!"%string]))
    /\ (forall d,
           initialized self = true -> _dof_map self = Some d ->
           processor_id self = 0 -> first_dof d <> 0 ->
           print fuel self sparse w = Fatal AssertionFailure).
Proof.
  intros self fuel sparse w. unfold print. split; [|split].
  - intros ->. reflexivity.
  - intros -> ->. reflexivity.
  - intros d -> -> -> Hf. cbn [libmesh_assert bind N.eqb].
    unfold libmesh_assert_equal_to. apply N.eqb_neq in Hf. now rewrite Hf.
Qed.

Lemma foreach_total {A S : Type} (body : A -> S -> result S) (l : list A) :
  (forall x s, exists s', body x s = Done s') ->
  forall s, exists s', foreach l body s = Done s'.
Proof.
  intros Hb. induction l as [|x l IH]; intros s; cbn [foreach].
  - now exists s.
  - destruct (Hb x s) as [s1 H1]. rewrite H1. cbn [bind]. apply IH.
Qed.

Lemma triplet_here_total (ibuf jbuf : list N) (currentb : nat) (r j : N) :
  length ibuf = length jbuf ->
  exists b, triplet_here ibuf jbuf currentb r j = Done b
            /\ (b = true -> (currentb < length ibuf)%nat).
Proof.
  intros Hlen. unfold triplet_here, size, vec_at.
  destruct (N.of_nat currentb <? N.of_nat (length ibuf)) eqn:E.
  - apply N.ltb_lt in E. assert (Hlt : (currentb < length ibuf)%nat) by lia.
    destruct (nth_error ibuf currentb) as [i'|] eqn:Ei.
    2:{ apply nth_error_None in Ei. lia. }
    cbn [bind]. destruct (i' =? r).
    + destruct (nth_error jbuf currentb) as [j'|] eqn:Ej.
      2:{ apply nth_error_None in Ej. lia. }
      cbn [bind]. eexists. split; [reflexivity|]. intros _. exact Hlt.
    + exists false. split; [reflexivity|discriminate].
  - exists false. split; [reflexivity|discriminate].
Qed.

(** With buffers of equal lengths, a row of the received range is
    always written: no access leaves a buffer. *)
Lemma print_received_row_total self (sparse : bool) (ibuf jbuf : list N)
      (cbuf : list T) (r : N) (st : nat * world T) :
  length ibuf = length jbuf -> length ibuf = length cbuf ->
  exists st', print_received_row self sparse ibuf jbuf cbuf r st = Done st'.
Proof.
  intros Hj Hc. unfold print_received_row.
  assert (Hval : forall cb, (cb < length ibuf)%nat ->
                            exists c, vec_at cbuf cb = Done c).
  { intros cb Hlt. unfold vec_at.
    destruct (nth_error cbuf cb) as [c|] eqn:E; [now exists c|].
    apply nth_error_None in E. lia. }
  destruct sparse.
  - apply foreach_total. intros j [cb w0].
    destruct (triplet_here_total ibuf jbuf cb r j Hj) as ([|] & -> & Hb);
      cbn [bind].
    + destruct (Hval cb (Hb eq_refl)) as [c ->]. cbn [bind]. eauto.
    + eauto.
  - destruct (foreach_total
                (fun j (st0 : nat * world T) =>
                   let '(currentb, w0) := st0 in
                   hit <- triplet_here ibuf jbuf currentb r j ;;
                   if (hit : bool) then
                     c <- vec_at cbuf currentb ;;
                     Done (S currentb, put [TVal c; TStr " "%string] w0)
                   else
                     Done (currentb, put [TVal scalar_zero; TStr " "%string] w0))
                (make_range (n self))) with (s := st) as [[cb w1] H1].
    + intros j [cb w0].
      destruct (triplet_here_total ibuf jbuf cb r j Hj) as ([|] & -> & Hb);
        cbn [bind].
      * destruct (Hval cb (Hb eq_refl)) as [c ->]. cbn [bind]. eauto.
      * eauto.
    + rewrite H1. cbn [bind]. eauto.
Qed.

Lemma for_le_total {S : Type} (body : N -> S -> result S) (last : N) :
  (forall i s, exists s', body i s = Done s') ->
  forall (fuel : nat) (i : N) (s : S),
    for_le fuel i last body s = OutOfFuel
    \/ exists r, for_le fuel i last body s = Done r.
Proof.
  intros Hb. induction fuel as [|fuel IH]; intros i s; cbn [for_le].
  - now left.
  - destruct (i <=? last).
    + destruct (Hb i s) as [s1 ->]. cbn [bind]. apply IH.
    + right. eauto.
Qed.

Lemma for_le_never_ends {S : Type} (body : N -> S -> result S) :
  (forall i s, exists s', body i s = Done s') ->
  forall (fuel : nat) (i : N) (s : S),
    i < index_modulus ->
    for_le fuel i (index_modulus - 1) body s = OutOfFuel.
Proof.
  intros Hb. induction fuel as [|fuel IH]; intros i s Hi; cbn [for_le].
  - reflexivity.
  - assert (E : (i <=? index_modulus - 1) = true) by (apply N.leb_le; lia).
    rewrite E. destruct (Hb i s) as [s1 ->]. cbn [bind].
    apply IH. unfold index_succ. apply wrap_lt.
Qed.

Lemma size_eq_length {A B : Type} (a : list A) (b : list B) :
  (size a =? size b) = true <-> length a = length b.
Proof. unfold size. rewrite N.eqb_eq. lia. Qed.

(** X8. Received sequences of different lengths are the assertion
    fault, whatever they hold and in both modes. *)
Theorem receive_from_size_mismatch :
  forall self (fuel : nat) (sparse : bool) (p currenti : N) (w : world T)
         (ibuf jbuf : list N) (cbuf : list T) (rest : list (packet T)),
    inbox w p = IndexPacket T ibuf :: IndexPacket T jbuf :: ValuePacket cbuf :: rest ->
    length ibuf <> length jbuf \/ length ibuf <> length cbuf ->
    receive_from fuel self sparse p (currenti, w) = Fatal AssertionFailure.
Proof.
  intros self fuel sparse p currenti w ibuf jbuf cbuf rest Hin Hne.
  erewrite receive_from_cases by exact Hin.
  unfold libmesh_assert_equal_to, libmesh_assert.
  destruct (size ibuf =? size jbuf) eqn:E1; cbn [bind]; [|reflexivity].
  destruct (size ibuf =? size cbuf) eqn:E2; cbn [bind]; [|reflexivity].
  apply size_eq_length in E1, E2. destruct Hne; contradiction.
Qed.

(** X9. Whatever three sequences the root receives, the only fault
    its step for that rank can end in is the assertion fault: no
    access ever leaves a buffer. *)
Theorem receive_from_stays_in_bounds :
  forall self (fuel : nat) (sparse : bool) (p currenti : N) (w : world T)
         (ibuf jbuf : list N) (cbuf : list T) (rest : list (packet T)) (f : fault),
    inbox w p = IndexPacket T ibuf :: IndexPacket T jbuf :: ValuePacket cbuf :: rest ->
    receive_from fuel self sparse p (currenti, w) = Fatal f ->
    f = AssertionFailure.
Proof.
  intros self fuel sparse p currenti w ibuf jbuf cbuf rest f Hin.
  erewrite receive_from_cases by exact Hin.
  unfold libmesh_assert_equal_to, libmesh_assert_greater_equal, libmesh_assert.
  destruct (size ibuf =? size jbuf) eqn:E1; cbn [bind]; [|congruence].
  destruct (size ibuf =? size cbuf) eqn:E2; cbn [bind]; [|congruence].
  apply size_eq_length in E1, E2.
  destruct ibuf as [|front tl] eqn:Eib; [discriminate|]. rewrite <- Eib in *.
  destruct (currenti <=? front); cbn [bind]; [|congruence].
  destruct (front <=? last ibuf front); cbn [bind]; [|congruence].
  destruct (for_le_total
              (print_received_row self sparse ibuf jbuf cbuf) (last ibuf front)
              (fun i s => print_received_row_total self sparse ibuf jbuf cbuf i s E1 E2)
              fuel currenti (O, received p jbuf cbuf rest w)) as [H|[r H]];
    rewrite H; cbn [bind]; discriminate.
Qed.

(** X10. A buffer that passes the checks and whose last row index is
    the largest value of [numeric_index_type] keeps the row loop
    running: [currenti <= ibuf.back()] holds for every value of
    [currenti], so no amount of fuel ends the call. *)
Theorem receive_from_max_index_diverges :
  forall self (fuel : nat) (sparse : bool) (p currenti : N) (w : world T)
         (ibuf jbuf : list N) (cbuf : list T) (rest : list (packet T))
         (front : N) (tl : list N),
    inbox w p = IndexPacket T ibuf :: IndexPacket T jbuf :: ValuePacket cbuf :: rest ->
    length ibuf = length jbuf -> length ibuf = length cbuf ->
    ibuf = front :: tl ->
    currenti <= front ->
    front <= last ibuf front ->
    last ibuf front = index_modulus - 1 ->
    receive_from fuel self sparse p (currenti, w) = OutOfFuel.
Proof.
  intros self fuel sparse p currenti w ibuf jbuf cbuf rest front tl
         Hin Hj Hc Hib Hcf Hfb Hmax.
  erewrite receive_from_cases by exact Hin.
  unfold libmesh_assert_equal_to, libmesh_assert_greater_equal, libmesh_assert.
  apply size_eq_length in Hj as E1. apply size_eq_length in Hc as E2.
  rewrite E1, E2. cbn [bind].
  apply N.leb_le in Hcf as E3. apply N.leb_le in Hfb as E4.
  destruct ibuf as [|front' tl'] eqn:Eib; [discriminate|].
  inversion Hib; subst front' tl'. rewrite <- Eib in *.
  rewrite E3, E4. cbn [bind]. rewrite Hmax.
  rewrite for_le_never_ends.
  - reflexivity.
  - intros i s. now apply print_received_row_total.
  - pose proof index_modulus_nonzero. lia.
Qed.
End PrintMore.

(* ================================================================== *)
(** ** Further properties: the default matrix-vector product *)
(* ================================================================== *)

Section VectorMore.
Variables T SparsityPattern NumericVector : Type.
Variable zero : NumericVector -> NumericVector.
Variable add_vector :
  NumericVector -> NumericVector -> SparseMatrix T SparsityPattern ->
  result NumericVector.
Implicit Types self : SparseMatrix T SparsityPattern.

(** X11. [vector_mult] overwrites its destination where
    [vector_mult_add] accumulates in it: when zeroing depends on the
    shape of a vector only (zeroing twice is zeroing once, and
    zeroing after [add_vector] is zeroing before it), a [vector_mult]
    into the result of an earlier product is the [vector_mult] into
    the original destination. *)
Theorem vector_mult_overwrites :
  forall self self' (dest arg1 arg2 d1 : NumericVector),
    (forall v, zero (zero v) = zero v) ->
    (forall v a M v', add_vector v a M = Done v' -> zero v' = zero v) ->
    vector_mult zero add_vector self' dest arg1 = Done d1 ->
    vector_mult zero add_vector self d1 arg2
    = vector_mult zero add_vector self dest arg2.
Proof.
  intros self self' dest arg1 arg2 d1 Hzz Hz H1.
  unfold vector_mult, vector_mult_add in *.
  apply Hz in H1. now rewrite H1, Hzz.
Qed.
End VectorMore.

(* ================================================================== *)
(** ** Further properties: the block inserter *)
(* ================================================================== *)

Lemma StronglySorted_app {A : Type} (R : A -> A -> Prop) (l1 l2 : list A) :
  StronglySorted R l1 -> StronglySorted R l2 ->
  (forall x y, In x l1 -> In y l2 -> R x y) ->
  StronglySorted R (l1 ++ l2).
Proof.
  induction l1 as [|a l1 IH]; intros H1 H2 H12; cbn [app]; [assumption|].
  apply StronglySorted_inv in H1. destruct H1 as [H1 Ha].
  constructor.
  - apply IH; [assumption|assumption|]. intros x y Hx Hy.
    apply H12; [now right|assumption].
  - apply Forall_app. split; [assumption|].
    apply Forall_forall. intros y Hy. apply H12; [now left|assumption].
Qed.

Lemma StronglySorted_map {A B : Type} (RA : A -> A -> Prop) (RB : B -> B -> Prop)
      (f : A -> B) (l : list A) :
  (forall x y, In x l -> In y l -> RA x y -> RB (f x) (f y)) ->
  StronglySorted RA l -> StronglySorted RB (map f l).
Proof.
  induction l as [|a l IH]; intros Hf H; cbn [map]; [constructor|].
  apply StronglySorted_inv in H. destruct H as [H Ha]. constructor.
  - apply IH; [|assumption]. intros x y Hx Hy. apply Hf; now right.
  - apply Forall_map. rewrite Forall_forall in Ha |- *. intros y Hy.
    apply Hf; [now left|now right|now apply Ha].
Qed.

Lemma StronglySorted_filter {A : Type} (R : A -> A -> Prop) (p : A -> bool)
      (l : list A) :
  StronglySorted R l -> StronglySorted R (filter p l).
Proof.
  induction l as [|a l IH]; intros H; cbn [filter]; [constructor|].
  apply StronglySorted_inv in H. destruct H as [H Ha].
  destruct (p a); [|now apply IH]. constructor; [now apply IH|].
  rewrite Forall_forall in Ha |- *. intros y Hy. apply filter_In in Hy.
  now apply Ha.
Qed.

Lemma StronglySorted_seq (start len : nat) :
  StronglySorted Nat.lt (seq start len).
Proof.
  revert start. induction len as [|len IH]; intros start; cbn [seq];
    constructor; [apply IH|].
  apply Forall_forall. intros y Hy. apply in_seq in Hy. unfold Nat.lt. lia.
Qed.

Lemma StronglySorted_IntRange (b e : N) : StronglySorted N.lt (IntRange b e).
Proof.
  unfold IntRange.
  apply StronglySorted_map with (RA := Nat.lt); [|apply StronglySorted_seq].
  intros x y _ _ H. unfold Nat.lt in H. lia.
Qed.

Lemma StronglySorted_NoDup (l : list N) : StronglySorted N.lt l -> NoDup l.
Proof.
  induction l as [|a l IH]; intros H; constructor;
    apply StronglySorted_inv in H; destruct H as [H Ha].
  - intros Hin. rewrite Forall_forall in Ha. specialize (Ha a Hin). lia.
  - now apply IH.
Qed.

Section BlockInserterMore.
Variables T SparsityPattern : Type.
Context {IT : IndexType}.
Variable add_matrix :
  DenseMatrix T -> list N -> list N ->
  SparseMatrix T SparsityPattern -> result (SparseMatrix T SparsityPattern).
Implicit Types (self : SparseMatrix T SparsityPattern) (dm : DenseMatrix T).

Lemma length_block_indices (blocksize r : N) :
  length (block_indices blocksize r) = N.to_nat blocksize.
Proof. unfold block_indices. now rewrite length_map, length_seq. Qed.

Lemma In_block_indices (blocksize r x : N) :
  r * blocksize + blocksize <= index_modulus ->
  In x (block_indices blocksize r)
  <-> r * blocksize <= x < r * blocksize + blocksize.
Proof.
  intros Hfit. rewrite block_indices_exact by assumption.
  rewrite in_map_iff. split.
  - intros (v & <- & Hv). apply in_seq in Hv. lia.
  - intros H. exists (N.to_nat (x - r * blocksize)). split; [lia|].
    apply in_seq. lia.
Qed.

(** X12. The expansion is positional: entry number [a * blocksize + v]
    of the expanded sequence, the one that [add_matrix] matches with
    row (or column) [a * blocksize + v] of the element matrix, is
    offset [v] of block [a], that is the index
    [blocks[a] * blocksize + v] of [numeric_index_type]. *)
Theorem expand_blocks_position :
  forall (blocksize : N) (blocks : list N) (a v : nat),
    (a < length blocks)%nat -> (v < N.to_nat blocksize)%nat ->
    nth (a * N.to_nat blocksize + v) (expand_blocks blocksize blocks) 0
    = wrap (nth a blocks 0 * blocksize + N.of_nat v).
Proof.
  intros blocksize blocks a v Ha Hv. rewrite expand_blocks_spec.
  unfold block_expansion. revert a Ha.
  induction blocks as [|r blocks IH]; intros a Ha; [cbn in Ha; lia|].
  cbn [flat_map]. destruct a as [|a].
  - cbn [Nat.mul Nat.add nth]. rewrite app_nth1
      by (rewrite length_block_indices; exact Hv).
    unfold block_indices.
    rewrite nth_indep with (d' := wrap (r * blocksize + N.of_nat 0))
      by (rewrite length_map, length_seq; exact Hv).
    rewrite (map_nth (fun v0 => wrap (r * blocksize + N.of_nat v0))).
    now rewrite seq_nth.
  - rewrite app_nth2 by (rewrite length_block_indices; cbn [Nat.mul]; lia).
    rewrite length_block_indices. cbn [nth Nat.mul].
    replace (N.to_nat blocksize + a * N.to_nat blocksize + v - N.to_nat blocksize)%nat
      with (a * N.to_nat blocksize + v)%nat by lia.
    apply IH. cbn [length] in Ha. lia.
Qed.

(** X13. Without overflow (every block ends at or before the largest
    index), block indices given in strictly increasing order expand
    to a strictly increasing sequence of scalar indices, and block
    indices that are pairwise different expand to scalar indices that
    are pairwise different. *)
Theorem expand_blocks_distinct :
  forall (blocksize : N) (blocks : list N),
    (forall r, In r blocks -> r * blocksize + blocksize <= index_modulus) ->
    (StronglySorted N.lt blocks ->
     StronglySorted N.lt (expand_blocks blocksize blocks))
    /\ (NoDup blocks -> NoDup (expand_blocks blocksize blocks)).
Proof.
  intros blocksize blocks Hfit. rewrite expand_blocks_spec.
  unfold block_expansion.
  assert (Hblock : forall r, In r blocks ->
                             StronglySorted N.lt (block_indices blocksize r)).
  { intros r Hr. rewrite block_indices_exact by (now apply Hfit).
    apply StronglySorted_map with (RA := Nat.lt); [|apply StronglySorted_seq].
    intros x y _ _ H. unfold Nat.lt in H. lia. }
  assert (Hin : forall x l, (forall r, In r l -> In r blocks) ->
                            In x (flat_map (block_indices blocksize) l) ->
                            exists r, In r l
                                      /\ r * blocksize <= x < r * blocksize + blocksize).
  { intros x l Hl Hx. apply in_flat_map in Hx. destruct Hx as (r & Hr & Hx).
    exists r. split; [assumption|].
    apply In_block_indices; [apply Hfit; now apply Hl|assumption]. }
  split.
  - induction blocks as [|r blocks IH]; intros Hs; cbn [flat_map];
      [constructor|].
    apply StronglySorted_inv in Hs. destruct Hs as [Hs Hr].
    apply StronglySorted_app.
    + apply Hblock. now left.
    + apply IH; try assumption.
      * intros r' Hr'. apply Hfit. now right.
      * intros r' Hr'. apply Hblock. now right.
      * intros x l Hl. apply Hin. intros r' Hr'. right. now apply Hl.
    + intros x y Hx Hy.
      apply In_block_indices in Hx; [|apply Hfit; now left].
      apply (Hin y blocks) in Hy; [|intros; now right].
      destruct Hy as (r' & Hr' & Hy).
      rewrite Forall_forall in Hr. specialize (Hr r' Hr'). nia.
  - induction blocks as [|r blocks IH]; intros Hnd; cbn [flat_map];
      [constructor|].
    inversion Hnd as [|? ? Hr Hnd']; subst.
    apply NoDup_app.
    + apply StronglySorted_NoDup. apply Hblock. now left.
    + apply IH; try assumption.
      * intros r' Hr'. apply Hfit. now right.
      * intros r' Hr'. apply Hblock. now right.
      * intros x l Hl. apply Hin. intros r' Hr'. right. now apply Hl.
    + intros x Hx Hy.
      apply In_block_indices in Hx; [|apply Hfit; now left].
      apply (Hin x blocks) in Hy; [|intros; now right].
      destruct Hy as (r' & Hr' & Hy).
      assert (r <> r') by (intros ->; contradiction).
      assert (r < r' \/ r' < r) by lia. nia.
Qed.

(** X14. With one block index per row and per column of the element
    matrix (block size 1), [add_block_matrix] is [add_matrix] with
    the block indices themselves, when [numeric_index_type] has at
    least one bit and the indices are values of it. *)
Theorem add_block_matrix_blocksize_one :
  forall self dm (brows bcols : list N),
    1 < index_modulus ->
    brows <> [] -> bcols <> [] ->
    size brows = dm_m dm -> size bcols = dm_n dm ->
    Forall (fun r => r < index_modulus) brows ->
    Forall (fun c => c < index_modulus) bcols ->
    add_block_matrix add_matrix self dm brows bcols = add_matrix dm brows bcols self.
Proof.
  intros self dm brows bcols Hbit Hbr Hbc HR HC Hrows Hcols.
  assert (Hone : forall l : list N,
             Forall (fun r => r < index_modulus) l -> block_expansion 1 l = l).
  { intros l Hl. unfold block_expansion.
    induction l as [|r l IH]; cbn [flat_map]; [reflexivity|].
    inversion Hl; subst. rewrite IH by assumption.
    unfold block_indices.
    change (N.to_nat 1) with 1%nat. cbn [seq map app].
    change (N.of_nat 0) with 0.
    f_equal. rewrite N.mul_1_r, N.add_0_r. now apply wrap_small. }
  assert (Hnz : forall (l : list N), l <> [] -> size l <> 0).
  { intros [|x l] H; [congruence|]. unfold size. cbn [length]. lia. }
  pose proof (Hnz _ Hbr) as Hbr'. pose proof (Hnz _ Hbc) as Hbc'.
  rewrite add_block_matrix_cases. rewrite <- HR, <- HC.
  rewrite !N.div_same by assumption.
  apply N.eqb_neq in Hbr', Hbc'. rewrite Hbr', Hbc'. cbv zeta.
  cbn [N.eqb negb Pos.eqb]. apply N.ltb_lt in Hbit. rewrite Hbit. cbn [negb].
  rewrite !N.mod_1_r. cbn [N.eqb negb].
  now rewrite !Hone.
Qed.
End BlockInserterMore.

(* ================================================================== *)
(** ** Further properties: sparse printing and the messages *)
(* ================================================================== *)

Lemma flat_map_flat_map {A B C : Type} (f : A -> list B) (g : B -> list C)
      (l : list A) :
  flat_map g (flat_map f l) = flat_map (fun x => flat_map g (f x)) l.
Proof.
  induction l as [|x l IH]; cbn [flat_map]; [reflexivity|].
  now rewrite flat_map_app, IH.
Qed.

Section SparsePrintMore.
Variables T SparsityPattern : Type.
Context {ST : Scalar T} {IT : IndexType}.
Implicit Types self pr : SparseMatrix T SparsityPattern.

Lemma received_sparse_lines (f : N -> N -> T) (keep : N -> N -> bool)
      (cols rows : list N) :
  flat_map (received_row_tokens f keep cols true) rows
  = flat_map (@triplet_line T) (kept_rows f keep cols rows).
Proof. unfold kept_rows. now rewrite flat_map_flat_map. Qed.

(** The loop over the ranks in sparse mode: the triplets of the
    senders, rank by rank. *)
Lemma drain_ranks_sparse self (fuel : nat) (P : N) :
  m self < index_modulus -> (N.to_nat (m self) < fuel)%nat ->
  forall (others : list (SparseMatrix T SparsityPattern))
         (k fd currenti : N) (w : world T),
    contiguous_from k fd P (m self) (n self) others = true ->
    currenti <= fd ->
    (forall idx pr d,
        nth_error others idx = Some pr -> _dof_map pr = Some d ->
        inbox w (k + N.of_nat idx)
        = buffer_packets (nonzero_triplets pr (first_dof d) (end_dof d))) ->
    exists currenti' w',
      foreach (IntRange k (k + size others)) (receive_from fuel self true)
              (currenti, w)
      = Done (currenti', w')
      /\ os w' = os w ++ flat_map (@triplet_line T)
                                  (flat_map (@owned_triplets T SparsityPattern ST)
                                            others).
Proof.
  intros Hm Hfuel. induction others as [|pr rest IH];
    intros k fd currenti w Hcont Hc Hinbox.
  - exists currenti, w. unfold size. cbn [length N.of_nat].
    rewrite N.add_0_r, IntRange_empty by lia. cbn [foreach flat_map].
    split; [reflexivity|]. now rewrite app_nil_r.
  - apply contiguous_from_cons in Hcont.
    destruct Hcont as (d & Hd & _ & _ & _ & _ & Hn & Hf & Hle & Hrest).
    pose proof (contiguous_from_le _ _ _ _ _ _ Hrest) as Hed.
    assert (Hsize : k + size (pr :: rest) = k + 1 + size rest)
      by (unfold size; cbn [length]; lia).
    rewrite Hsize, IntRange_cons by lia. cbn [foreach].
    destruct (@receive_from_sender _ _ _ _ self pr (first_dof d) (end_dof d)
                fuel true k currenti w)
      as (c1 & w1 & Hrun & Hc1 & Hos1 & _ & Hinb1 & Hz1);
      try assumption; try lia.
    { specialize (Hinbox O pr d eq_refl Hd). cbn [N.of_nat] in Hinbox.
      now rewrite N.add_0_r in Hinbox. }
    rewrite Hrun. cbn [bind].
    destruct (IH (k + 1) (end_dof d) c1 w1) as (c2 & w2 & Hrun2 & Hos2);
      try assumption; try lia.
    { intros idx pr' d' Hnth Hd'. rewrite Hinb1 by lia.
      replace (k + 1 + N.of_nat idx) with (k + N.of_nat (S idx)) by lia.
      now apply Hinbox. }
    exists c2, w2. split; [exact Hrun2|].
    rewrite Hos2, Hos1, received_sparse_lines, <- app_assoc. f_equal.
    cbn [flat_map]. rewrite flat_map_app. f_equal. f_equal.
    unfold owned_triplets. rewrite Hd.
    assert (Hcf : currenti <= first_dof d) by lia.
    assert (Hfe : first_dof d <= end_dof d) by lia.
    rewrite (nonzero_triplets_from pr Hcf Hfe), Hn.
    rewrite (@IntRange_split currenti c1 (end_dof d)) by lia.
    rewrite kept_rows_app.
    rewrite (@kept_rows_none _ _ _ (sender_keep pr (first_dof d))
               (IntRange c1 (end_dof d))).
    + now rewrite app_nil_r.
    + intros r j Hr Hj. apply In_IntRange in Hr. apply In_IntRange in Hj.
      apply Hz1; lia.
Qed.

(** X15. When the processes' row ranges are contiguous by increasing
    rank from row 0, sparse printing appends to the root's stream
    exactly one line [row col value] for every entry of an owned row
    that compares unequal to zero: the root's own first, then those
    of rank 1, rank 2, ..., each in row-major order; rows without
    such an entry give no line, and nothing is padded. *)
Theorem print_sparse_content :
  forall (root : SparseMatrix T SparsityPattern)
         (others : list (SparseMatrix T SparsityPattern))
         (fuel : nat) (os0 : list (token T)),
    row_partition (root :: others) = true ->
    (N.to_nat (m root) < fuel)%nat ->
    collective_print fuel (root :: others) true os0
    = Done (os0 ++ flat_map (@triplet_line T)
                            (flat_map (@owned_triplets T SparsityPattern ST)
                                      (root :: others))).
Proof.
  intros root others fuel os0 Hpart Hfuel.
  unfold row_partition in Hpart. apply andb_prop in Hpart.
  destruct Hpart as [Hm Hcont]. apply N.ltb_lt in Hm.
  apply contiguous_from_cons in Hcont.
  destruct Hcont as (d & Hd & Hini & Hp & HP & _ & _ & Hf & Hle & Hrest).
  pose proof (contiguous_from_le _ _ _ _ _ _ Hrest) as Hed.
  cbn [N.add] in Hrest.
  unfold collective_print, print. rewrite Hini, Hd, Hp.
  cbn [libmesh_assert bind N.eqb]. unfold libmesh_assert_equal_to.
  rewrite Hf. cbn [N.eqb libmesh_assert bind].
  rewrite for_ne_foreach by lia. rewrite print_own_rows_sparse. cbn [bind].
  assert (HPr : IntRange 1 (n_processors root) = IntRange 1 (1 + size others)).
  { rewrite HP. unfold size. cbn [length]. f_equal. lia. }
  rewrite HPr.
  destruct (@drain_ranks_sparse root fuel (size (root :: others))
              Hm Hfuel others 1 (end_dof d) (end_dof d)
              (put (flat_map (@triplet_line T)
                      (filter (fun e => nonzero (snd e))
                              (entries root (IntRange 0 (end_dof d)))))
                   {| os := os0;
                      inbox := delivered fuel others true;
                      outbox := [] |}))
    as (c & w' & Hrun & Hos).
  - exact Hrest.
  - lia.
  - intros idx pr dp Hnth Hdp. cbn [put inbox].
    now apply delivered_spec
      with (fd := end_dof d) (P := size (root :: others)) (mm := m root)
           (nn := n root).
  - rewrite Hrun. cbn [bind negb]. f_equal. rewrite Hos. cbn [put os].
    rewrite <- app_assoc. f_equal. cbn [flat_map]. rewrite flat_map_app.
    f_equal. unfold owned_triplets at 1. rewrite Hd, Hf. reflexivity.
Qed.

Lemma combine_rows_cols (B : list (N * N * T)) :
  combine (rows_of B) (cols_of B) = map fst B.
Proof.
  induction B as [|[[i j] c] B IH]; cbn; [reflexivity|]. f_equal. exact IH.
Qed.

Lemma entries_row_major self (rows : list N) :
  StronglySorted N.lt rows ->
  StronglySorted (fun e e' : N * N * T => row_major_lt (fst e) (fst e'))
                 (entries self rows).
Proof.
  unfold entries. induction rows as [|i rows IH]; intros Hs; cbn [flat_map];
    [constructor|].
  apply StronglySorted_inv in Hs. destruct Hs as [Hs Hi].
  apply StronglySorted_app.
  - unfold row_entries.
    apply StronglySorted_map with (RA := N.lt); [|apply StronglySorted_IntRange].
    intros x y _ _ H. right. cbn. split; [reflexivity|assumption].
  - now apply IH.
  - intros e e' He He'. unfold row_entries in He.
    apply in_map_iff in He. destruct He as (j & <- & _).
    apply in_flat_map in He'. destruct He' as (i' & Hi' & He').
    apply in_map_iff in He'. destruct He' as (j' & <- & _).
    left. cbn. rewrite Forall_forall in Hi. now apply Hi.
Qed.

(** X16. What a process other than the root sends, in either mode:
    three sequences of equal length to rank 0 and nothing else, with
    nothing written to its stream; the positions [(row, col)] are in
    strictly increasing row-major order, every row is one the process
    owns, every column is below [n()], and every value compares
    unequal to zero. *)
Theorem print_sends_row_major :
  forall self (d : DofMap SparsityPattern) (fuel : nat) (sparse : bool)
         (w : world T),
    initialized self = true ->
    _dof_map self = Some d ->
    processor_id self <> 0 ->
    first_dof d <= end_dof d ->
    end_dof d < index_modulus ->
    (N.to_nat (end_dof d - first_dof d) < fuel)%nat ->
    exists (ibuf jbuf : list N) (cbuf : list T),
      print fuel self sparse w
      = Done {| os := os w;
                inbox := inbox w;
                outbox := outbox w ++ [(0, IndexPacket T ibuf);
                                       (0, IndexPacket T jbuf);
                                       (0, ValuePacket cbuf)] |}
      /\ length ibuf = length jbuf
      /\ length ibuf = length cbuf
      /\ StronglySorted row_major_lt (combine ibuf jbuf)
      /\ Forall (fun ij => first_dof d <= fst ij < end_dof d /\ snd ij < n self)
                (combine ibuf jbuf)
      /\ Forall (fun c => nonzero c = true) cbuf.
Proof.
  intros self d fuel sparse w Hini Hd Hp Hle Hlt Hfuel.
  set (B := nonzero_triplets self (first_dof d) (end_dof d)).
  exists (rows_of B), (cols_of B), (values_of B).
  split; [|split; [|split; [|split; [|split]]]].
  - rewrite print_nonroot with (d := d) by assumption. cbv zeta. fold B.
    unfold send. cbn [os inbox outbox]. now rewrite <- !app_assoc.
  - unfold rows_of, cols_of. now rewrite !length_map.
  - unfold rows_of, values_of. now rewrite !length_map.
  - rewrite combine_rows_cols.
    apply StronglySorted_map
      with (RA := fun e e' : N * N * T => row_major_lt (fst e) (fst e')).
    + intros x y _ _ H. exact H.
    + unfold B, nonzero_triplets. apply StronglySorted_filter.
      apply entries_row_major, StronglySorted_IntRange.
  - rewrite combine_rows_cols. apply Forall_map, Forall_forall.
    intros [[i j] c] He. cbn [fst snd].
    apply In_nonzero_triplets in He. tauto.
  - unfold values_of. apply Forall_map, Forall_forall.
    intros [[i j] c] He. cbn [snd].
    apply In_nonzero_triplets in He. unfold nonzero. tauto.
Qed.
End SparsePrintMore.

(* ================================================================== *)
(** ** Further properties: accepted block insertions that fall short *)
(* ================================================================== *)

Section TruncationMore.
Variables T SparsityPattern : Type.
Context {IT : IndexType}.
Variable add_matrix :
  DenseMatrix T -> list N -> list N ->
  SparseMatrix T SparsityPattern -> result (SparseMatrix T SparsityPattern).
Implicit Types (self : SparseMatrix T SparsityPattern) (dm : DenseMatrix T).

(** X17. The row sequence that [add_block_matrix] builds has
    [brows.size() * blocksize] entries, never more than [dm.m()],
    and exactly [dm.m()] if and only if [brows.size()] divides
    [dm.m()]: when the division leaves a remainder and the checks
    pass, [add_matrix] gets fewer row indices than the element matrix
    has rows. *)
Theorem expand_blocks_size :
  forall dm (brows : list N),
    size brows <> 0 ->
    let blocksize := dm_m dm / size brows in
    size (expand_blocks blocksize brows) = size brows * blocksize
    /\ size (expand_blocks blocksize brows) <= dm_m dm
    /\ (size (expand_blocks blocksize brows) = dm_m dm
        <-> dm_m dm mod size brows = 0).
Proof.
  intros dm brows Hbr blocksize. subst blocksize.
  rewrite expand_blocks_spec, size_block_expansion.
  pose proof (N.div_mod (dm_m dm) (size brows) Hbr) as Hdm.
  revert Hdm.
  generalize (dm_m dm mod size brows) as rem.
  generalize (size brows * (dm_m dm / size brows)) as prod.
  intros prod rem Hdm.
  split; [reflexivity|]. split; [lia|]. split; intros H; lia.
Qed.
End TruncationMore.

(* ================================================================== *)
(** ** Further properties: what the root's print leaves alone *)
(* ================================================================== *)

Section AppendOnly.
Variables T SparsityPattern : Type.
Context {ST : Scalar T} {IT : IndexType}.
Implicit Types self : SparseMatrix T SparsityPattern.

Lemma only_written_refl (w : world T) : only_written w w.
Proof. split; [reflexivity|]. exists []. now rewrite app_nil_r. Qed.

Lemma only_written_trans (w1 w2 w3 : world T) :
  only_written w1 w2 -> only_written w2 w3 -> only_written w1 w3.
Proof.
  intros [H1 [o1 E1]] [H2 [o2 E2]]. split; [congruence|].
  exists (o1 ++ o2). now rewrite E2, E1, app_assoc.
Qed.

Lemma only_written_put (items : list (token T)) (w : world T) :
  only_written w (put items w).
Proof. split; [reflexivity|]. now exists items. Qed.

Lemma foreach_invariant {A S : Type} (R : S -> S -> Prop)
      (body : A -> S -> result S) (l : list A) :
  (forall s, R s s) ->
  (forall s1 s2 s3, R s1 s2 -> R s2 s3 -> R s1 s3) ->
  (forall x s s', body x s = Done s' -> R s s') ->
  forall s s', foreach l body s = Done s' -> R s s'.
Proof.
  intros Hrefl Htrans Hb. induction l as [|x l IH]; intros s s' H;
    cbn [foreach] in H.
  - inversion H. apply Hrefl.
  - destruct (body x s) as [s1| |] eqn:E; cbn [bind] in H; try discriminate.
    apply Htrans with s1; [now apply (Hb x)|now apply IH].
Qed.

Lemma for_ne_invariant {S : Type} (R : S -> S -> Prop)
      (body : N -> S -> result S) (last : N) :
  (forall s, R s s) ->
  (forall s1 s2 s3, R s1 s2 -> R s2 s3 -> R s1 s3) ->
  (forall x s s', body x s = Done s' -> R s s') ->
  forall fuel i s s', for_ne fuel i last body s = Done s' -> R s s'.
Proof.
  intros Hrefl Htrans Hb. induction fuel as [|fuel IH]; intros i s s' H;
    cbn [for_ne] in H; [discriminate|].
  destruct (i =? last).
  - inversion H. apply Hrefl.
  - destruct (body i s) as [s1| |] eqn:E; cbn [bind] in H; try discriminate.
    apply Htrans with s1; [now apply (Hb i)|now apply IH in H].
Qed.

Lemma for_le_invariant {S : Type} (R : S -> S -> Prop)
      (body : N -> S -> result S) (last : N) :
  (forall s, R s s) ->
  (forall s1 s2 s3, R s1 s2 -> R s2 s3 -> R s1 s3) ->
  (forall x s s', body x s = Done s' -> R s s') ->
  forall fuel i s r, for_le fuel i last body s = Done r -> R s (snd r).
Proof.
  intros Hrefl Htrans Hb. induction fuel as [|fuel IH]; intros i s r H;
    cbn [for_le] in H; [discriminate|].
  destruct (i <=? last).
  - destruct (body i s) as [s1| |] eqn:E; cbn [bind] in H; try discriminate.
    apply Htrans with s1; [now apply (Hb i)|now apply IH in H].
  - inversion H. apply Hrefl.
Qed.

Lemma print_received_row_written self (sparse : bool) (ibuf jbuf : list N)
      (cbuf : list T) (r : N) (st st' : nat * world T) :
  print_received_row self sparse ibuf jbuf cbuf r st = Done st' ->
  only_written (snd st) (snd st').
Proof.
  assert (Hcol : forall (hit_items : N -> T -> list (token T))
                        (miss : world T -> world T) (j : N) (s s' : nat * world T),
             (forall w0, only_written w0 (miss w0)) ->
             (let '(currentb, w0) := s in
              hit <- triplet_here ibuf jbuf currentb r j ;;
              if (hit : bool) then
                c <- vec_at cbuf currentb ;;
                Done (S currentb, put (hit_items j c) w0)
              else Done (currentb, miss w0)) = Done s' ->
             only_written (snd s) (snd s')).
  { intros hit_items miss j [cb w0] s' Hmiss H.
    destruct (triplet_here ibuf jbuf cb r j) as [[|]| |]; cbn [bind] in H;
      try discriminate.
    - destruct (vec_at cbuf cb) as [c| |]; cbn [bind] in H; try discriminate.
      inversion H. cbn [snd]. apply only_written_put.
    - inversion H. cbn [snd]. apply Hmiss. }
  unfold print_received_row. destruct sparse; intros H.
  - revert H. apply foreach_invariant
      with (R := fun s s' : nat * world T => only_written (snd s) (snd s')).
    + intros s. apply only_written_refl.
    + intros s1 s2 s3. apply only_written_trans.
    + intros j s s' Hb.
      apply (Hcol (fun j c => [TIdx r; TStr " "%string; TIdx j; TStr " "%string;
                               TVal c; TEndl])
                  (fun w0 => w0) j s s'); [apply only_written_refl|].
      destruct s. exact Hb.
  - destruct (foreach _ _ st) as [[cb w1]| |] eqn:E; cbn [bind] in H;
      try discriminate.
    inversion H. cbn [snd].
    apply only_written_trans with w1; [|apply only_written_put].
    change w1 with (snd (cb, w1)). revert E. apply foreach_invariant
      with (R := fun s s' : nat * world T => only_written (snd s) (snd s')).
    + intros s. apply only_written_refl.
    + intros s1 s2 s3. apply only_written_trans.
    + intros j s s' Hb.
      apply (Hcol (fun j c => [TVal c; TStr " "%string])
                  (fun w0 => put [TVal scalar_zero; TStr " "%string] w0) j s s');
        [intros; apply only_written_put|].
      destruct s. exact Hb.
Qed.

Lemma receive_written (p : N) (w : world T) :
  (forall v w', receive_indices p w = Done (v, w') -> only_written w w')
  /\ (forall v w', receive_values p w = Done (v, w') -> only_written w w').
Proof.
  unfold receive_indices, receive_values.
  split; intros v w' H; destruct (inbox w p) as [|[x|x] rest];
    try discriminate; inversion H; unfold pop_inbox;
    (split; [reflexivity|]); exists []; cbn [os]; now rewrite app_nil_r.
Qed.

Lemma receive_from_written self (fuel : nat) (sparse : bool) (p : N)
      (st st' : N * world T) :
  receive_from fuel self sparse p st = Done st' ->
  only_written (snd st) (snd st').
Proof.
  destruct st as [currenti w]. unfold receive_from. intros H.
  destruct (receive_indices p w) as [[ibuf w1]| |] eqn:E1; cbn [bind] in H;
    try discriminate.
  destruct (receive_indices p w1) as [[jbuf w2]| |] eqn:E2; cbn [bind] in H;
    try discriminate.
  destruct (receive_values p w2) as [[cbuf w3]| |] eqn:E3; cbn [bind] in H;
    try discriminate.
  apply (proj1 (receive_written p w)) in E1.
  apply (proj1 (receive_written p w1)) in E2.
  apply (proj2 (receive_written p w2)) in E3.
  assert (H3 : only_written w w3)
    by (eapply only_written_trans; [eapply only_written_trans|]; eassumption).
  destruct (libmesh_assert_equal_to (size ibuf) (size jbuf)); cbn [bind] in H;
    try discriminate.
  destruct (libmesh_assert_equal_to (size ibuf) (size cbuf)); cbn [bind] in H;
    try discriminate.
  destruct ibuf as [|front tl] eqn:Eib.
  - inversion H. exact H3.
  - rewrite <- Eib in H.
    destruct (libmesh_assert_greater_equal front currenti); cbn [bind] in H;
      try discriminate.
    destruct (libmesh_assert_greater_equal (last ibuf front) front);
      cbn [bind] in H; try discriminate.
    destruct (for_le fuel currenti (last ibuf front)
                (print_received_row self sparse ibuf jbuf cbuf) (O, w3))
      as [[c [cb w4]]| |] eqn:E; cbn [bind] in H; try discriminate.
    inversion H. cbn [snd]. apply only_written_trans with w3; [exact H3|].
    apply for_le_invariant
      with (R := fun s s' : nat * world T => only_written (snd s) (snd s'))
      in E.
    + exact E.
    + intros s. apply only_written_refl.
    + intros s1 s2 s3. apply only_written_trans.
    + intros x s s'. apply print_received_row_written.
Qed.

(** X18. On rank 0 [print] only appends to the stream: whenever it
    returns, in either mode and whatever was received, the old
    content of the stream is a prefix of the new one and nothing was
    sent. *)
Theorem print_root_appends_only :
  forall self (fuel : nat) (sparse : bool) (w w' : world T),
    processor_id self = 0 ->
    print fuel self sparse w = Done w' ->
    outbox w' = outbox w /\ exists out, os w' = os w ++ out.
Proof.
  intros self fuel sparse w w' Hp H. unfold print in H.
  destruct (libmesh_assert (initialized self)); cbn [bind] in H;
    try discriminate.
  destruct (_dof_map self) as [d|]; [|discriminate].
  rewrite Hp in H. cbn [N.eqb] in H.
  destruct (libmesh_assert_equal_to (first_dof d) 0); cbn [bind] in H;
    try discriminate.
  destruct (for_ne fuel (first_dof d) (end_dof d) (print_own_row self sparse) w)
    as [w1| |] eqn:E1; cbn [bind] in H; try discriminate.
  destruct (foreach (IntRange 1 (n_processors self))
              (receive_from fuel self sparse) (end_dof d, w1))
    as [[c w2]| |] eqn:E2; cbn [bind] in H; try discriminate.
  assert (H1 : only_written w w1).
  { revert E1. apply for_ne_invariant.
    - apply only_written_refl.
    - apply only_written_trans.
    - intros i s s' Hb. unfold print_own_row in Hb. destruct sparse.
      + revert Hb. apply foreach_invariant.
        * apply only_written_refl.
        * apply only_written_trans.
        * intros j s0 s0' Hj. cbv zeta in Hj.
          destruct (nonzero (entry self i j)); inversion Hj;
            [apply only_written_put|apply only_written_refl].
      + destruct (foreach _ _ s) as [s1| |] eqn:E; cbn [bind] in Hb;
          try discriminate.
        inversion Hb. apply only_written_trans with s1;
          [|apply only_written_put].
        revert E. apply foreach_invariant.
        * apply only_written_refl.
        * apply only_written_trans.
        * intros j s0 s0' Hj. inversion Hj. apply only_written_put. }
  assert (H2 : only_written w1 w2).
  { change w1 with (snd (end_dof d, w1)). change w2 with (snd (c, w2)).
    revert E2. apply foreach_invariant
      with (R := fun s s' : N * world T => only_written (snd s) (snd s')).
    - intros s. apply only_written_refl.
    - intros s1 s2 s3. apply only_written_trans.
    - intros p s s'. apply receive_from_written. }
  assert (H3 : only_written w2 w').
  { destruct sparse; cbn [negb] in H.
    - inversion H. apply only_written_refl.
    - revert H. apply for_ne_invariant.
      + apply only_written_refl.
      + apply only_written_trans.
      + intros i s s' Hb. unfold print_zero_row in Hb.
        destruct (foreach _ _ s) as [s1| |] eqn:E; cbn [bind] in Hb;
          try discriminate.
        inversion Hb. apply only_written_trans with s1;
          [|apply only_written_put].
        revert E. apply foreach_invariant.
        * apply only_written_refl.
        * apply only_written_trans.
        * intros j s0 s0' Hj. inversion Hj. apply only_written_put. }
  exact (only_written_trans (only_written_trans H1 H2) H3).
Qed.
End AppendOnly.

(* ================================================================== *)
(** ** Further properties: the shape of dense rows for any buffer *)
(* ================================================================== *)

Section DenseShapeMore.
Variables T SparsityPattern : Type.
Context {ST : Scalar T} {IT : IndexType}.
Implicit Types self : SparseMatrix T SparsityPattern.

Lemma print_received_row_dense_shape self (ibuf jbuf : list N) (cbuf : list T)
      (r : N) (cb : nat) (w : world T) :
  length ibuf = length jbuf -> length ibuf = length cbuf ->
  exists cb' row,
    print_received_row self false ibuf jbuf cbuf r (cb, w)
    = Done (cb', put (dense_line row) w)
    /\ size row = n self.
Proof.
  intros Hj Hc. unfold print_received_row.
  assert (Hcols : forall (cols : list N) (cb0 : nat) (w0 : world T),
             exists cb' vals,
               foreach cols
                 (fun j (st : nat * world T) =>
                    let '(currentb, w1) := st in
                    hit <- triplet_here ibuf jbuf currentb r j ;;
                    if (hit : bool) then
                      c <- vec_at cbuf currentb ;;
                      Done (S currentb, put [TVal c; TStr " "%string] w1)
                    else
                      Done (currentb, put [TVal scalar_zero; TStr " "%string] w1))
                 (cb0, w0)
               = Done (cb', put (flat_map (@dense_field T) vals) w0)
               /\ length vals = length cols).
  { induction cols as [|j cols IH]; intros cb0 w0; cbn [foreach].
    - exists cb0, []. cbn [flat_map]. now rewrite put_nil.
    - destruct (triplet_here_total ibuf jbuf cb0 r j Hj) as ([|] & -> & Hb);
        cbn [bind].
      + assert (Hval : exists c, vec_at cbuf cb0 = Done c).
        { unfold vec_at. destruct (nth_error cbuf cb0) as [c|] eqn:E;
            [now exists c|].
          apply nth_error_None in E. specialize (Hb eq_refl). lia. }
        destruct Hval as [c ->]. cbn [bind].
        destruct (IH (S cb0) (put [TVal c; TStr " "%string] w0))
          as (cb' & vals & -> & Hlen).
        exists cb', (c :: vals). cbn [flat_map length].
        rewrite put_put. split; [reflexivity|]. now rewrite Hlen.
      + destruct (IH cb0 (put [TVal scalar_zero; TStr " "%string] w0))
          as (cb' & vals & -> & Hlen).
        exists cb', (scalar_zero :: vals). cbn [flat_map length].
        rewrite put_put. split; [reflexivity|]. now rewrite Hlen. }
  destruct (Hcols (make_range (n self)) cb w) as (cb' & vals & -> & Hlen).
  cbn [bind]. rewrite put_put. exists cb', vals. split; [reflexivity|].
  unfold size. rewrite Hlen. apply length_make_range.
Qed.

Lemma print_received_rows_dense_shape self (ibuf jbuf : list N) (cbuf : list T)
      (rows : list N) :
  length ibuf = length jbuf -> length ibuf = length cbuf ->
  forall (cb : nat) (w : world T),
    exists cb' lines,
      foreach rows (print_received_row self false ibuf jbuf cbuf) (cb, w)
      = Done (cb', put (dense_block lines) w)
      /\ length lines = length rows
      /\ Forall (fun row => size row = n self) lines.
Proof.
  intros Hj Hc. induction rows as [|r rows IH]; intros cb w; cbn [foreach].
  - exists cb, []. cbn. rewrite put_nil. repeat split. constructor.
  - destruct (print_received_row_dense_shape self ibuf jbuf cbuf r cb w Hj Hc)
      as (cb1 & row & -> & Hrow).
    cbn [bind].
    destruct (IH cb1 (put (dense_line row) w)) as (cb' & lines & -> & Hlen & Hall).
    exists cb', (row :: lines). rewrite put_put. cbn [dense_block flat_map length].
    split; [reflexivity|]. split; [now rewrite Hlen|]. now constructor.
Qed.

(** X19. In dense mode the root's step for a rank writes whole lines
    only, whatever the buffer holds: when the three sequences have
    equal length, the checks pass and the last row index is below the
    largest index, the step ends with [currenti] one past that index
    and has appended one line for each row from the old [currenti] to
    it, each of exactly [n()] fields. *)
Theorem receive_from_dense_shape :
  forall self (fuel : nat) (p currenti : N) (w : world T)
         (ibuf jbuf : list N) (cbuf : list T) (rest : list (packet T))
         (front : N) (tl : list N),
    inbox w p = IndexPacket T ibuf :: IndexPacket T jbuf :: ValuePacket cbuf :: rest ->
    length ibuf = length jbuf -> length ibuf = length cbuf ->
    ibuf = front :: tl ->
    currenti <= front ->
    front <= last ibuf front ->
    last ibuf front + 1 < index_modulus ->
    (N.to_nat (last ibuf front + 1 - currenti) < fuel)%nat ->
    exists w' lines,
      receive_from fuel self false p (currenti, w)
      = Done (last ibuf front + 1, w')
      /\ os w' = os w ++ dense_block lines
      /\ size lines = last ibuf front + 1 - currenti
      /\ Forall (fun row => size row = n self) lines.
Proof.
  intros self fuel p currenti w ibuf jbuf cbuf rest front tl
         Hin Hj Hc Hib Hcf Hfb Hmax Hfuel.
  erewrite receive_from_cases by exact Hin.
  unfold libmesh_assert_equal_to, libmesh_assert_greater_equal, libmesh_assert.
  apply size_eq_length in Hj as E1. apply size_eq_length in Hc as E2.
  rewrite E1, E2. cbn [bind].
  apply N.leb_le in Hcf as E3. apply N.leb_le in Hfb as E4.
  destruct ibuf as [|front' tl'] eqn:Eib; [discriminate|].
  inversion Hib; subst front' tl'. rewrite <- Eib in *.
  rewrite E3, E4. cbn [bind].
  rewrite for_le_foreach by lia.
  destruct (print_received_rows_dense_shape self ibuf jbuf cbuf
              (IntRange currenti (last ibuf front + 1)) Hj Hc
              O (received p jbuf cbuf rest w))
    as (cb' & lines & -> & Hlen & Hall).
  cbn [bind fst snd]. eexists _, lines. split; [reflexivity|].
  split; [reflexivity|]. split; [|exact Hall].
  unfold size. rewrite Hlen, length_IntRange. lia.
Qed.
End DenseShapeMore.

(* ================================================================== *)
(** ** The further properties at concrete inputs *)
(* ================================================================== *)

Ltac by_evaluation' :=
  first [ reflexivity | discriminate
        | vm_compute; first [ reflexivity | discriminate | repeat constructor ] ].

Lemma attach_dof_map_twice_witness :
  _dof_map (attach_dof_map (attach_dof_map example_built dof_map_a) dof_map_b)
  = Some dof_map_b
  /\ _sp (attach_dof_map (attach_dof_map example_built dof_map_a) dof_map_b)
     = Some 1%nat.
Proof.
  apply (@attach_dof_map_twice Z nat example_built dof_map_a dof_map_b 1%nat);
    reflexivity.
Defined.

Lemma build_returns_fresh_witness :
  exists obj,
    Some example_built = Some obj
    /\ _communicator obj = example_comm
    /\ _dof_map obj = None
    /\ _sp obj = None
    /\ _is_initialized obj = false
    /\ compiled_in example_cfg (dynamic_class obj) = true
    /\ storage obj = example_storage (dynamic_class obj) example_comm.
Proof.
  apply (@build_returns_fresh Z nat example_cfg example_storage example_comm
           PETSC_SOLVERS AUTOMATIC (Some example_built)).
  reflexivity.
Defined.

Lemma build_then_print_witness :
  print 3 example_built false (quiet_world []) = Fatal AssertionFailure.
Proof.
  apply (@build_then_print Z nat Z_scalar index32 example_cfg example_storage
           example_comm PETSC_SOLVERS AUTOMATIC example_built 3%nat false
           (quiet_world [])).
  reflexivity.
Defined.

Lemma build_then_attach_witness :
  _dof_map (attach_dof_map example_built dof_map_b) = Some dof_map_b
  /\ _sp (attach_dof_map example_built dof_map_b) = Some 2%nat.
Proof.
  apply (@build_then_attach Z nat example_cfg example_storage
           example_comm EIGEN_SOLVERS DIAGONAL
           (SparseMatrix_ctor nat DiagonalMatrix example_comm
              (example_storage DiagonalMatrix example_comm))
           dof_map_b).
  reflexivity.
Defined.

Lemma print_preconditions_witness :
  print 3 example_initialized true (quiet_world [])
  = Fatal (ErrorMsg
             [MStr "Error!  Trying to print a matrix with no dof_map set!"%string]).
Proof.
  destruct (@print_preconditions Z nat Z_scalar index32 example_initialized
              3%nat true (quiet_world [])) as (_ & H & _).
  apply H; reflexivity.
Defined.

Lemma receive_from_size_mismatch_witness :
  receive_from 4 scenario_root true 1 (2, mismatch_world) = Fatal AssertionFailure.
Proof.
  apply (@receive_from_size_mismatch Z unit Z_scalar index32 scenario_root
           4%nat true 1 2 mismatch_world [2] [0; 1] [3%Z] []).
  - reflexivity.
  - left. discriminate.
Defined.

Lemma receive_from_stays_in_bounds_witness :
  receive_from 4 scenario_root false 1 (5, scenario_world) = Fatal AssertionFailure
  /\ AssertionFailure = AssertionFailure.
Proof.
  assert (H : receive_from 4 scenario_root false 1 (5, scenario_world)
              = Fatal AssertionFailure) by (vm_compute; reflexivity).
  split; [exact H|].
  apply (@receive_from_stays_in_bounds Z unit Z_scalar index32 scenario_root
           4%nat false 1 5 scenario_world [2] [0] [3%Z] [] AssertionFailure).
  - reflexivity.
  - exact H.
Defined.

Lemma receive_from_max_index_diverges_witness :
  receive_from 5 scenario_root false 1 (0, max_index_world) = OutOfFuel.
Proof.
  apply (@receive_from_max_index_diverges Z unit Z_scalar index32 scenario_root
           5%nat false 1 0 max_index_world [4294967295] [0] [3%Z] []
           4294967295 []); by_evaluation'.
Defined.

Lemma example_zero_twice (v : list Z) : example_zero (example_zero v) = example_zero v.
Proof. unfold example_zero. now rewrite map_map. Qed.

Lemma example_zero_length (v v' : list Z) :
  length v = length v' -> example_zero v = example_zero v'.
Proof.
  unfold example_zero. revert v'.
  induction v as [|x v IH]; intros [|y v'] H; cbn in *; try discriminate;
    [reflexivity|].
  f_equal. apply IH. now inversion H.
Qed.

Lemma example_zero_add_vector (v a : list Z) (M : SparseMatrix Z unit) (v' : list Z) :
  example_add_vector v a M = Done v' -> example_zero v' = example_zero v.
Proof.
  unfold example_add_vector. intros H. inversion H. apply example_zero_length.
  rewrite length_map. pose proof (length_make_range (size v)) as Hl.
  unfold size in *. apply Nat2N.inj. exact Hl.
Qed.

Lemma vector_mult_overwrites_witness :
  vector_mult example_zero example_add_vector scenario_root [1; 2; 0]%Z [3; 4; 5]%Z
  = vector_mult example_zero example_add_vector scenario_root [7; 7; 7]%Z [3; 4; 5]%Z.
Proof.
  apply (@vector_mult_overwrites Z unit (list Z) example_zero example_add_vector
           scenario_root scenario_root [7; 7; 7]%Z [1; 1; 1]%Z [3; 4; 5]%Z
           [1; 2; 0]%Z).
  - exact example_zero_twice.
  - exact example_zero_add_vector.
  - vm_compute. reflexivity.
Defined.

Lemma expand_blocks_position_witness :
  nth 3 (expand_blocks 2 [5; 7]) 0 = 15.
Proof.
  exact (@expand_blocks_position index32 2 [5; 7] 1%nat 1%nat
           (le_n 2) (le_n 2)).
Defined.

Lemma expand_blocks_distinct_witness :
  NoDup (expand_blocks 2 [7; 5]).
Proof.
  destruct (@expand_blocks_distinct index32 2 [7; 5]) as [_ H].
  - intros r [<-|[<-|[]]]; vm_compute; discriminate.
  - apply H. constructor.
    + intros [E|[]]. discriminate E.
    + constructor; [intros []|constructor].
Defined.

Lemma add_block_matrix_blocksize_one_witness :
  add_block_matrix example_add_matrix example_self (ones 2 3) [5; 7] [1; 2; 3]
  = example_add_matrix (ones 2 3) [5; 7] [1; 2; 3] example_self.
Proof.
  pose proof (@add_block_matrix_blocksize_one Z unit index32 example_add_matrix
                example_self (ones 2 3) [5; 7] [1; 2; 3]) as H.
  apply H.
  - vm_compute. reflexivity.
  - discriminate.
  - discriminate.
  - reflexivity.
  - reflexivity.
  - repeat constructor.
  - repeat constructor.
Defined.

Lemma print_sparse_content_witness :
  collective_print 4 [scenario_root; scenario_other] true []
  = Done (triplet_line (0, 0, 1%Z) ++ triplet_line (1, 1, 2%Z)
          ++ triplet_line (2, 0, 3%Z)).
Proof.
  rewrite (@print_sparse_content Z unit Z_scalar index32
             scenario_root [scenario_other] 4%nat []).
  - vm_compute. reflexivity.
  - vm_compute. reflexivity.
  - vm_compute. repeat constructor.
Defined.

Lemma print_sends_row_major_witness :
  exists (ibuf jbuf : list N) (cbuf : list Z),
    print 4 scenario_other false (quiet_world [])
    = Done {| os := [];
              inbox := fun _ => [];
              outbox := [] ++ [(0, IndexPacket Z ibuf);
                               (0, IndexPacket Z jbuf);
                               (0, ValuePacket cbuf)] |}
    /\ length ibuf = length jbuf
    /\ length ibuf = length cbuf
    /\ StronglySorted row_major_lt (combine ibuf jbuf)
    /\ Forall (fun ij => 2 <= fst ij < 3 /\ snd ij < 3) (combine ibuf jbuf)
    /\ Forall (fun c => nonzero c = true) cbuf.
Proof.
  apply (@print_sends_row_major Z unit Z_scalar index32 scenario_other
           {| first_dof := 2; end_dof := 3; get_sparsity_pattern := None |}
           4%nat false (quiet_world [])); by_evaluation'.
Defined.

Lemma expand_blocks_size_witness :
  size (expand_blocks 1 [0; 1; 2; 3]) = 4
  /\ size (expand_blocks 1 [0; 1; 2; 3]) <= 6
  /\ (size (expand_blocks 1 [0; 1; 2; 3]) = 6 <-> 6 mod 4 = 0).
Proof.
  apply (@expand_blocks_size Z index32 (ones 6 6) [0; 1; 2; 3]).
  discriminate.
Defined.

Lemma print_root_appends_only_witness :
  let w' := {| os := triplet_line (0, 0, 1%Z) ++ triplet_line (1, 1, 1%Z);
               inbox := fun _ : N => @nil (packet Z);
               outbox := [] |} in
  outbox w' = outbox (quiet_world (@nil (token Z)))
  /\ exists out, os w' = os (quiet_world (@nil (token Z))) ++ out.
Proof.
  intros w'.
  apply (@print_root_appends_only Z unit Z_scalar index32 example_single
           3%nat true (quiet_world []) w').
  - reflexivity.
  - vm_compute. reflexivity.
Defined.

Lemma receive_from_dense_shape_witness :
  exists w' lines,
    receive_from 4 scenario_root false 1 (2, scenario_world) = Done (3, w')
    /\ os w' = os scenario_world ++ dense_block lines
    /\ size lines = 1
    /\ Forall (fun row => size row = 3) lines.
Proof.
  apply (@receive_from_dense_shape Z unit Z_scalar index32 scenario_root
           4%nat 1 2 scenario_world [2] [0] [3%Z] [] 2 []); by_evaluation'.
Defined.
